(** * linear-terminal-clock: the bar engine of [linear_terminal_clock/bar.py]

    A shallow embedding of the bar builder, the two offset conversions, the
    per-slot character generator and the scale-marker search, together with
    the properties the specification states about them.

    Conventions of the embedding:
    - an instant ([datetime.datetime]) is a count of microseconds, a [Z];
      a [datetime.timedelta] is a signed count of microseconds, a [Z] too.
      The calendar bounds of [datetime] (years 1 to 9999) and of
      [timedelta] are not modelled;
    - a Python [float] is an IEEE 754 binary64 number, modelled by the
      Standard Library's [spec_float] with [prec = 53] and [emax = 1024];
      every arithmetic operation rounds to nearest, ties to even;
    - a Python exception is an [Error] result. *)

From Stdlib Require Import ZArith List Bool Lia String Ascii.
From Stdlib Require Import DecimalString.
From Stdlib Require Import SpecFloat.
From Stdlib Require Import Reals Lra.
Import ListNotations.
Open Scope Z_scope.

(** ** Exceptions and results *)

Inductive exn : Type :=
| ZeroDivisionError
| OverflowError
| ValueError_nan              (* cannot convert float NaN to integer *)
| ValueError_offset           (* "To compute a `BarOffset` for ... it must either be in one of the Bar's slots ..." *)
| ValueError_phase            (* "Couldn't choose a phase. ..." *)
| ValueError_color            (* "Couldn't choose a color. ..." *)
| TypeError.                  (* an int compared with None *)

Inductive result (A : Type) : Type :=
| Ok (a : A)
| Error (e : exn).
Arguments Ok {A} a.
Arguments Error {A} e.

Definition bind {A B : Type} (r : result A) (k : A -> result B) : result B :=
  match r with
  | Ok a => k a
  | Error e => Error e
  end.

Notation "x <- r ;; k" := (bind r (fun x => k))
  (at level 61, r at next level, right associativity).

(** Runs [f] on every element, left to right, stopping at the first error. *)
Fixpoint mapM {A B : Type} (f : A -> result B) (l : list A) : result (list B) :=
  match l with
  | [] => Ok []
  | a :: l' => b <- f a ;; bs <- mapM f l' ;; Ok (b :: bs)
  end.

(** ** Python floats (binary64) *)

Module PyFloat.

Definition prec : Z := 53.
Definition emax : Z := 1024.

Definition float : Type := spec_float.

(** [float(n)] for a Python int: correctly rounded; an int too large for a
    double raises OverflowError. *)
Definition of_int (n : Z) : result float :=
  match binary_normalize prec emax n 0 false with
  | S754_infinity _ => Error OverflowError
  | x => Ok x
  end.

(** Float literals of the source. *)
Definition f_1_0 : float := Eval cbv in binary_normalize prec emax 1 0 false.
Definition f_0_5 : float := Eval cbv in binary_normalize prec emax 1 (-1) false.
Definition f_1e6 : float := Eval cbv in binary_normalize prec emax 1000000 0 false.

Definition is_zero (x : float) : bool :=
  match x with S754_zero _ => true | _ => false end.

Definition mul (x y : float) : float := SFmul prec emax x y.
Definition add (x y : float) : float := SFadd prec emax x y.

(** [x / y] on floats raises ZeroDivisionError when [y] is zero. *)
Definition div (x y : float) : result float :=
  if is_zero y then Error ZeroDivisionError else Ok (SFdiv prec emax x y).

(** [a / b] on Python ints (true division): the correctly rounded
    quotient. *)
Definition int_true_div (a b : Z) : result float :=
  match a, b with
  | _, Z0 => Error ZeroDivisionError
  | Z0, _ => Ok (S754_zero false)
  | _, _ =>
      let s := xorb (a <? 0) (b <? 0) in
      let '(mz, ez, lz) := SFdiv_core_binary prec emax (Z.abs a) 0 (Z.abs b) 0 in
      match binary_round_aux prec emax s mz ez lz with
      | S754_infinity _ => Error OverflowError
      | x => Ok x
      end
  end.

(** [int(x)]: truncation toward zero; NaN and the infinities raise. *)
Definition to_int (x : float) : result Z :=
  match x with
  | S754_zero _ => Ok 0
  | S754_nan => Error ValueError_nan
  | S754_infinity _ => Error OverflowError
  | S754_finite s m e =>
      let a := match e with
               | Zneg k => Z.shiftr (Zpos m) (Zpos k)
               | _ => Z.shiftl (Zpos m) e
               end in
      Ok (if s then - a else a)
  end.

(** [math.modf(x)] for a finite [x]: the fractional part (a float with the
    sign of [x]) and the integral part (here already as an int). *)
Definition modf (x : float) : float * Z :=
  match x with
  | S754_finite s m (Zneg k) =>
      let ip := Z.shiftr (Zpos m) (Zpos k) in
      let fm := Z.land (Zpos m) (Z.ones (Zpos k)) in
      (binary_normalize prec emax (if s then - fm else fm) (Zneg k) s,
       if s then - ip else ip)
  | S754_finite s m e => (S754_zero s, if s then - Z.shiftl (Zpos m) e else Z.shiftl (Zpos m) e)
  | _ => (x, 0)
  end.

(** [round(x)] for a finite float [x]: the nearest int, ties to even. *)
Definition round_half_even (x : float) : Z :=
  match x with
  | S754_finite s m (Zneg k) =>
      let q := Z.shiftr (Zpos m) (Zpos k) in
      let r := Z.land (Zpos m) (Z.ones (Zpos k)) in
      let half := Z.shiftl 1 (Zpos k - 1) in
      let a := match r ?= half with
               | Lt => q
               | Gt => q + 1
               | Eq => if Z.even q then q else q + 1
               end in
      if s then - a else a
  | S754_finite s m e => if s then - Z.shiftl (Zpos m) e else Z.shiftl (Zpos m) e
  | _ => 0
  end.

End PyFloat.

Import PyFloat.

(** ** Instants, durations and ranges *)

Definition datetime : Type := Z.    (* microseconds *)
Definition timedelta : Type := Z.   (* microseconds, signed *)

(** [datetime.timedelta(seconds = x)] for a float [x]: the whole seconds are
    converted exactly, the fractional second is scaled to microseconds in
    floating point and rounded to the nearest microsecond, ties to even. *)
Definition timedelta_of_seconds (x : float) : result timedelta :=
  match x with
  | S754_nan => Error ValueError_nan
  | S754_infinity _ => Error OverflowError
  | _ => let '(fracpart, intpart) := modf x in
         Ok (intpart * 1000000 + round_half_even (mul f_1e6 fracpart))
  end.

(** [td.total_seconds()]: the microsecond count divided by [10**6]. *)
Definition total_seconds (td : timedelta) : result float :=
  int_true_div td 1000000.

(** [spans.datetimerange(lower, upper, lower_inc = True, upper_inc = False)]:
    the only kind of range this module builds.  (The library refuses
    [upper < lower]; the builder never asks for such a range when the cycle
    ends after it starts, and that refusal is not modelled.) *)
Record datetimerange : Type := { lower : datetime; upper : datetime }.

(** [dt in slot] *)
Definition contains (slot : datetimerange) (dt : datetime) : bool :=
  (lower slot <=? dt) && (dt <? upper slot).

(** Modelled from the spec: the class [Cycle] of [linear_terminal_clock.cycle]
    is not among the sources; its four attributes are those of section 3. *)
Record Cycle : Type := {
  start   : datetime;
  end_    : datetime;
  sunset  : option datetime;
  visible : bool
}.

(** [BarOffset] (of [linear_terminal_clock.types]) is a name for [int]. *)
Definition BarOffset : Type := Z.

Record Bar : Type := {
  cycle         : Cycle;
  slots         : list datetimerange;
  slot_duration : timedelta
}.

(** [range(n)] *)
Definition range (n : Z) : list Z := map Z.of_nat (seq 0 (Z.to_nat n)).

(** [len(l)] *)
Definition len {A : Type} (l : list A) : Z := Z.of_nat (List.length l).

(** ** [bar_from_cycle_and_length] *)

(** [cycle.start + datetime.timedelta(seconds = k * seconds_per_slot)] *)
Definition slot_bound (c : Cycle) (seconds_per_slot : float) (k : Z) : result datetime :=
  fk <- of_int k ;;
  d <- timedelta_of_seconds (mul fk seconds_per_slot) ;;
  Ok (start c + d).

Definition slot_of (c : Cycle) (seconds_per_slot : float) (i : Z) : result datetimerange :=
  lo <- slot_bound c seconds_per_slot (i + 0) ;;
  hi <- slot_bound c seconds_per_slot (i + 1) ;;
  Ok {| lower := lo; upper := hi |}.

Definition bar_from_cycle_and_length (c : Cycle) (bar_length : Z) : result Bar :=
  seconds_per_bar <- total_seconds (end_ c - start c) ;;
  fl <- of_int bar_length ;;
  bars_per_slot <- div f_1_0 fl ;;
  let seconds_per_slot := mul seconds_per_bar bars_per_slot in
  sl <- mapM (slot_of c seconds_per_slot) (range bar_length) ;;
  sd <- timedelta_of_seconds seconds_per_slot ;;
  Ok {| cycle := c; slots := sl; slot_duration := sd |}.

(** ** [bar_offset_from_bar_and_datetime] *)

(** The loop [for i, slot in enumerate(bar.slots): if dt in slot: return i],
    started at index [i]. *)
Fixpoint first_slot (dt : datetime) (sl : list datetimerange) (i : Z) : option Z :=
  match sl with
  | [] => None
  | slot :: rest => if contains slot dt then Some i else first_slot dt rest (i + 1)
  end.

Definition bar_offset_from_bar_and_datetime (bar : Bar) (dt : datetime) : result BarOffset :=
  if dt =? end_ (cycle bar) then Ok (len (slots bar))
  else match first_slot dt (slots bar) 0 with
       | Some i => Ok i
       | None => Error ValueError_offset
       end.

(** ** [bar_offset_from_bar_and_percent] *)

Definition bar_offset_from_bar_and_percent (bar : Bar) (percentage : float) : result BarOffset :=
  points_per_bar <- of_int 100 ;;
  fl <- of_int (len (slots bar)) ;;
  bars_per_char <- div f_1_0 fl ;;
  let points_per_char := mul points_per_bar bars_per_char in
  chars <- div percentage points_per_char ;;
  to_int (add chars f_0_5).

(** ** [gen_bar_chars] and [render] *)

Inductive Phase : Type := day | night | twilight.

Definition Phase_eqb (p q : Phase) : bool :=
  match p, q with
  | day, day | night, night | twilight, twilight => true
  | _, _ => false
  end.

(** The attributes of [TERM] the generator yields. *)
Inductive TermAttr : Type :=
| black_on_orange | orange
| black_on_purple | purple
| black_on_blue | blue
| normal.

(** What the generator yields: an attribute of [TERM], a character of the
    time label, [CHAR_FULL] or [CHAR_EMPTY]. *)
Inductive token : Type :=
| TAttr (a : TermAttr)
| TChar (c : ascii)
| TFull
| TEmpty.

(** Truth value of an [Optional[BarOffset]]: [None] and [0] are false. *)
Definition offset_truthy (o : option BarOffset) : bool :=
  match o with
  | Some k => negb (k =? 0)
  | None => false
  end.

(** Truth value of an [Optional[str]]: [None] and the empty string are false. *)
Definition str_truthy (o : option string) : bool :=
  match o with
  | Some s => negb (String.length s =? 0)%nat
  | None => false
  end.

Definition is_some {A : Type} (o : option A) : bool :=
  match o with Some _ => true | None => false end.

Definition strlen (s : string) : Z := Z.of_nat (String.length s).

(** The time label and the offset of its leftmost character. *)
Definition time_label_of (dt_offset : BarOffset) (time_label_text : option string)
  : option (string * BarOffset) :=
  if str_truthy time_label_text then
    match time_label_text with
    | Some txt =>
        if dt_offset <? strlen txt then Some (txt, 0)
        else Some (txt, dt_offset - strlen txt + 1)
    | None => None
    end
  else None.

Definition phase_of (bar : Bar) (sunset_offset : option BarOffset) (slot_offset : Z)
  : result Phase :=
  if slot_offset =? 0 then Ok twilight
  else if offset_truthy sunset_offset then
    match sunset_offset with
    | Some so =>
        if slot_offset <? so then Ok day
        else if slot_offset =? so then Ok twilight
        else Ok night
    | None => Error TypeError
    end
  else if negb (offset_truthy sunset_offset) then
    if visible (cycle bar) then Ok day else Ok night
  else Error ValueError_phase.

Definition text_char_of (time_label : option (string * BarOffset)) (slot_offset : Z)
  : option ascii :=
  match time_label with
  | Some (txt, off) =>
      let i := slot_offset - off in
      if (0 <=? i) && (i <? strlen txt) then String.get (Z.to_nat i) txt else None
  | None => None
  end.

Definition color_of (phase : Phase) (text_char : option ascii) (has_passed : bool)
  : result TermAttr :=
  let tc := is_some text_char in
  if      Phase_eqb phase day      &&      tc &&      has_passed then Ok black_on_orange
  else if Phase_eqb phase day      &&      tc && negb has_passed then Ok orange
  else if Phase_eqb phase day      && negb tc &&      has_passed then Ok orange
  else if Phase_eqb phase day      && negb tc && negb has_passed then Ok orange
  else if Phase_eqb phase twilight &&      tc &&      has_passed then Ok black_on_purple
  else if Phase_eqb phase twilight &&      tc && negb has_passed then Ok purple
  else if Phase_eqb phase twilight && negb tc &&      has_passed then Ok purple
  else if Phase_eqb phase twilight && negb tc && negb has_passed then Ok purple
  else if Phase_eqb phase night    &&      tc &&      has_passed then Ok black_on_blue
  else if Phase_eqb phase night    &&      tc && negb has_passed then Ok blue
  else if Phase_eqb phase night    && negb tc &&      has_passed then Ok blue
  else if Phase_eqb phase night    && negb tc && negb has_passed then Ok blue
  else Error ValueError_color.

(** The body of the loop over the slots: what is yielded for one slot. *)
Definition gen_slot (bar : Bar) (dt_offset : BarOffset)
    (sunset_offset : option BarOffset) (time_label : option (string * BarOffset))
    (slot_offset : Z) : result (list token) :=
  phase <- phase_of bar sunset_offset slot_offset ;;
  let text_char := text_char_of time_label slot_offset in
  let has_passed := dt_offset >=? slot_offset in
  color <- color_of phase text_char has_passed ;;
  Ok ([TAttr color]
      ++ [match text_char with
          | Some c => TChar c
          | None => if has_passed then TFull else TEmpty
          end]
      ++ (if is_some text_char then [TAttr normal] else [])).

Definition gen_bar_chars (bar : Bar) (dt_offset : BarOffset) (time_label_text : option string)
  : result (list token) :=
  sunset_offset <-
    match sunset (cycle bar) with
    | Some dt => so <- bar_offset_from_bar_and_datetime bar dt ;; Ok (Some so)
    | None => Ok None
    end ;;
  let time_label := time_label_of dt_offset time_label_text in
  toks <- mapM (gen_slot bar dt_offset sunset_offset time_label) (range (len (slots bar))) ;;
  Ok (List.concat toks).

(** Modelled from the spec: [linear_terminal_clock.constants] is not among
    the sources; the strings behind [TERM]'s attributes and the two glyphs
    are opaque styling tokens, taken here as they come. *)
Record Constants : Type := {
  TERM       : TermAttr -> string;
  CHAR_FULL  : string;
  CHAR_EMPTY : string
}.

Definition token_str (k : Constants) (t : token) : string :=
  match t with
  | TAttr a => TERM k a
  | TChar c => String c EmptyString
  | TFull => CHAR_FULL k
  | TEmpty => CHAR_EMPTY k
  end.

Definition render (k : Constants) (bar : Bar) (dt_offset : BarOffset)
    (time_label_text : option string) : result string :=
  toks <- gen_bar_chars bar dt_offset time_label_text ;;
  Ok (String.concat EmptyString (map (token_str k) toks)).

(** ** [scale_from_bar] *)

(** [a or b] on "chars" that are [None] or a one-character string (always
    true). *)
Definition or_2_arity (a b : option ascii) : option ascii :=
  match a with
  | Some _ => a
  | None => b
  end.

(** [functools.reduce] of [or_2_arity] over the arguments, from [None] *)
Definition or_N_arity (args : list (option ascii)) : option ascii :=
  fold_left or_2_arity args None.

(** [itertools.zip_longest] applied to the lists: one tuple per position up to the longest
    list, the shorter lists padded with [None]. *)
Definition zip_longest (lists : list (list (option ascii))) : list (list (option ascii)) :=
  map (fun p => map (fun l => nth p l None) lists)
      (seq 0 (fold_right Nat.max 0%nat (map (@List.length _) lists))).

(** [range(0, stop, step)] for a positive [step] *)
Definition range_step (stop step : Z) : list Z :=
  map (fun k => k * step) (range ((stop + step - 1) / step)).

(** [str(n)] for an int *)
Definition str (n : Z) : string := NilZero.string_of_int (Z.to_int n).

(** [str.isspace] on one character *)
Definition isspace (c : ascii) : bool :=
  let n := nat_of_ascii c in
  ((9 <=? n) && (n <=? 13) || (28 <=? n) && (n <=? 32) || (n =? 133) || (n =? 160))%nat.

(** [s.split()]: the maximal runs of non-blank characters, in order.
    [cur] is the run being read, reversed. *)
Fixpoint split_aux (s : list ascii) (cur : list ascii) : list string :=
  match s with
  | [] => match cur with
          | [] => []
          | _ => [string_of_list_ascii (rev cur)]
          end
  | c :: s' =>
      if isspace c then
        match cur with
        | [] => split_aux s' []
        | _ => string_of_list_ascii (rev cur) :: split_aux s' []
        end
      else split_aux s' (c :: cur)
  end.

Definition split (s : string) : list string := split_aux (list_ascii_of_string s) [].

(** The list built for one marker:
    [([None]*offset) + list(str(marker))] *)
Definition marker_list (bar : Bar) (marker : Z) : result (list (option ascii)) :=
  fm <- of_int marker ;;
  offset <- bar_offset_from_bar_and_percent bar fm ;;
  Ok (repeat None (Z.to_nat offset) ++ map Some (list_ascii_of_string (str marker))).

Definition candidate_scale (bar : Bar) (step : Z) : result string :=
  lists <- mapM (marker_list bar) (range_step (100 + 1) step) ;;
  Ok (string_of_list_ascii
        (map (fun c => match c with Some ch => ch | None => " "%char end)
             (map or_N_arity (zip_longest lists)))).

(** The loop over the steps; falling off its end returns [None]. *)
Fixpoint scale_loop (bar : Bar) (steps : list Z) : result (option string) :=
  match steps with
  | [] => Ok None
  | step :: rest =>
      candidate <- candidate_scale bar step ;;
      let separated_markers := split candidate in
      if len separated_markers =? len (range_step (100 + 1) step)
      then Ok (Some candidate)
      else scale_loop bar rest
  end.

Definition scale_from_bar (bar : Bar) : result (option string) :=
  scale_loop bar [10; 20; 25; 33; 50].


(** * Real-number semantics of binary64 (used in proofs only) *)

Definition bpow (e : Z) : R := powerRZ 2 e.

Definition digits (m : positive) : Z := Z.pos (digits2_pos m).
Arguments digits : simpl never.

(** location of a real between two consecutive integers *)
Definition inbetween (m : Z) (l : location) (y : R) : Prop :=
  match l with
  | loc_Exact => y = IZR m
  | loc_Inexact Lt => (IZR m < y < IZR m + / 2)%R
  | loc_Inexact Eq => y = (IZR m + / 2)%R
  | loc_Inexact Gt => (IZR m + / 2 < y < IZR m + 1)%R
  end.

Definition repr (mrs : shr_record) (y : R) : Prop :=
  inbetween (shr_m mrs) (loc_of_shr_record mrs) y.

(** positive normalised binary64 numbers and their real value *)
Definition pfloat (x : spec_float) (v : R) : Prop :=
  exists m e, x = S754_finite false m e /\ digits m = 53 /\ v = (IZR (Z.pos m) * bpow e)%R.

Definition u53 : R := bpow (-53).

(** [v] approximates the positive real [x] with relative error [eps] *)
Definition approx (v x eps : R) : Prop := (0 < x)%R /\ (Rabs (v - x) <= eps * x)%R.


(** * Specification-side definitions and concrete inputs *)

(** The phase the specification gives slot [i] (section 4.4, step 1):
    [so] is the sunset offset when the cycle has a sunset. *)
Definition phase_spec (so : option BarOffset) (vis : bool) (i : Z) : Phase :=
  if i =? 0 then twilight
  else match so with
       | Some s => if i <? s then day else if i =? s then twilight else night
       | None => if vis then day else night
       end.


(** The two styles of a phase. *)
Definition plain_style (p : Phase) : TermAttr :=
  match p with day => orange | twilight => purple | night => blue end.

Definition inverted_style (p : Phase) : TermAttr :=
  match p with day => black_on_orange | twilight => black_on_purple | night => black_on_blue end.

(** Tokens that only a time label produces. *)
Definition is_label_token (t : token) : bool :=
  match t with
  | TChar _ => true
  | TAttr normal => true
  | _ => false
  end.

(** A scale candidate is legible when splitting it on blanks gives back as
    many tokens as there are markers. *)
Definition legible (candidate : string) (step : Z) : bool :=
  len (split candidate) =? len (range_step (100 + 1) step).

(** Microseconds since midnight of [h:m]. *)
Definition at_time (h m : Z) : datetime := (h * 3600 + m * 60) * 1000000.

(** A 24 hour cycle from 06:00 with its sunset at 18:00 (scenario 1 and 2 of
    the specification). *)
Definition c24 : Cycle :=
  {| start := at_time 6 0; end_ := at_time 30 0; sunset := Some (at_time 18 0); visible := false |}.

(** The same cycle with the sun setting one hour after it rose, and the
    visibility flag set. *)
Definition c_early : Cycle :=
  {| start := at_time 6 0; end_ := at_time 30 0; sunset := Some (at_time 7 0); visible := true |}.

(** The same cycle without a sunset (polar night). *)
Definition c_polar : Cycle :=
  {| start := at_time 6 0; end_ := at_time 30 0; sunset := None; visible := false |}.

(** A hand-made bar of three slots whose last slot reaches past the end of
    its cycle. *)
Definition bar_hand : Bar :=
  {| cycle := {| start := 0; end_ := 30; sunset := None; visible := true |};
     slots := [ {| lower := 0; upper := 10 |}; {| lower := 10; upper := 20 |}; {| lower := 20; upper := 40 |} ];
     slot_duration := 10 |}.

(** The bar the builder returns for a cycle and a length, an empty bar
    where it raises. *)
Definition bar_of (c : Cycle) (bar_length : Z) : Bar :=
  match bar_from_cycle_and_length c bar_length with
  | Ok b => b
  | Error _ => {| cycle := c; slots := []; slot_duration := 0 |}
  end.

(** * Further definitions *)

(** The phase the code gives slot [i], as a total function (the value of
    [phase_of]). *)
Definition phase_code (bar : Bar) (so : option BarOffset) (i : Z) : Phase :=
  if i =? 0 then twilight
  else if offset_truthy so then phase_spec so (visible (cycle bar)) i
  else if visible (cycle bar) then day else night.

(** The sunset offset [gen_bar_chars] computes first. *)
Definition sunset_offset_of (bar : Bar) : result (option BarOffset) :=
  match sunset (cycle bar) with
  | Some dt => so <- bar_offset_from_bar_and_datetime bar dt ;; Ok (Some so)
  | None => Ok None
  end.

(** Every label character is followed at once by the reset to [normal], and
    [normal] appears nowhere else. *)
Fixpoint resets_ok (toks : list token) : bool :=
  match toks with
  | [] => true
  | TChar _ :: TAttr normal :: rest => resets_ok rest
  | TChar _ :: _ => false
  | TAttr normal :: _ => false
  | _ :: rest => resets_ok rest
  end.


(** What the loop of [gen_bar_chars] yields for slot [i], as a total
    function (the value of [gen_slot]). *)
Definition slot_tokens (bar : Bar) (dt_offset : BarOffset) (so : option BarOffset)
    (tl : option (string * BarOffset)) (i : Z) : list token :=
  TAttr (if is_some (text_char_of tl i) && (dt_offset >=? i)
         then inverted_style (phase_code bar so i)
         else plain_style (phase_code bar so i))
  :: match text_char_of tl i with
     | Some c => [TChar c; TAttr normal]
     | None => [if dt_offset >=? i then TFull else TEmpty]
     end.

(** Plain-text stand-ins for the styling strings and the two glyphs. *)
Definition plain_constants : Constants :=
  {| TERM := fun _ => EmptyString; CHAR_FULL := "#"%string; CHAR_EMPTY := "-"%string |}.

(** The leftmost element that is not [None]. *)
Fixpoint first_some (args : list (option ascii)) : option ascii :=
  match args with
  | [] => None
  | Some c :: _ => Some c
  | None :: rest => first_some rest
  end.

(** * [clock.py]: drawing a frame *)

(** What reaches the terminal: [print(s)] at the cursor, or
    [with TERM.location(x, y): print(s)], which writes [s] from column [x]
    of row [y]. *)
Inductive Output : Type :=
| Print (s : string)
| At (x y : Z) (s : string).

(** What [clock.py] can raise: the failure of an [assert], or an exception
    of [bar.py] passing through. *)
Inductive clock_exn : Type :=
| AssertionError
| BarError (e : exn).

(** A run of a drawing routine: what it printed, in order, and the
    exception that ended it, if any. *)
Record Run : Type := { printed : list Output; raised : option clock_exn }.

Definition out (o : list Output) : Run := {| printed := o; raised := None |}.

Definition fail (e : clock_exn) : Run := {| printed := []; raised := Some e |}.

(** [r1] and then, unless it raised, [r2]. *)
Definition and_then (r1 r2 : Run) : Run :=
  match raised r1 with
  | Some _ => r1
  | None => {| printed := printed r1 ++ printed r2; raised := raised r2 |}
  end.

(** A call into [bar.py], whose exception ends the run. *)
Definition try_bar {A : Type} (r : result A) (k : A -> Run) : Run :=
  match r with
  | Ok a => k a
  | Error e => fail (BarError e)
  end.

Definition draw_label (bar_begin_x bar_y offset : Z) (above scale : bool)
    (text marker : option string) : Run :=
  let marker_y_offset := -1 in
  let text_y_offset := if str_truthy marker then -2 else -1 in
  let '(marker_y_offset, text_y_offset) :=
    if negb above then
      let marker_y_offset := marker_y_offset * -1 in
      let text_y_offset := text_y_offset * -1 in
      if scale then (marker_y_offset + 1, text_y_offset + 1)
      else (marker_y_offset, text_y_offset)
    else (marker_y_offset, text_y_offset) in
  and_then
    (if str_truthy marker then
       match marker with
       | Some mk =>
           if strlen mk =? 1
           then out [At (bar_begin_x + offset) (bar_y + marker_y_offset) mk]
           else fail AssertionError
       | None => out []
       end
     else out [])
    (if str_truthy text then
       match text with
       | Some txt => out [At (bar_begin_x + offset - strlen txt / 2) (bar_y + text_y_offset) txt]
       | None => out []
       end
     else out []).

(** Modelled from the spec: the terminal and the constants of
    [linear_terminal_clock.constants] that [draw_frame] reads are not among
    the sources; they are taken as they come, and so is the rendering of a
    wall-clock time, [dt.time().isoformat(timespec = 'minutes')]. *)
Record Screen : Type := {
  MARGIN_LR  : Z;
  width      : Z;
  height     : Z;
  clear      : string;
  CHAR_BEGIN : string;
  CHAR_END   : string;
  isoformat_minutes : datetime -> string
}.

Definition draw_frame (k : Constants) (sc : Screen) (cycle : Cycle) (now : datetime) : Run :=
  let cap_begin_x := MARGIN_LR sc in
  let cap_end_x := width sc - MARGIN_LR sc - 1 in
  let bar_y := height sc / 2 in
  let bar_begin_x := cap_begin_x + 1 in
  let bar_end_x := cap_end_x - 1 in
  and_then (out [Print (clear sc);
                 At cap_begin_x bar_y (CHAR_BEGIN sc);
                 At cap_end_x bar_y (CHAR_END sc)])
  (try_bar (bar_from_cycle_and_length cycle (bar_end_x - bar_begin_x + 1)) (fun bar =>
   try_bar (bar_offset_from_bar_and_datetime bar now) (fun now_offset =>
   try_bar (render k bar now_offset (Some (isoformat_minutes sc now))) (fun rendered =>
   and_then (out [At bar_begin_x bar_y rendered])
  (try_bar (scale_from_bar bar) (fun scale =>
   and_then (if str_truthy scale
             then match scale with
                  | Some s => out [At bar_begin_x (bar_y + 1) s]
                  | None => out []
                  end
             else out [])
  (match sunset cycle with
   | Some sunset_dt =>
       try_bar (bar_offset_from_bar_and_datetime bar sunset_dt) (fun sunset_offset =>
       and_then (draw_label bar_begin_x bar_y sunset_offset true true
                   (Some (isoformat_minutes sc sunset_dt)) (Some "|"%string))
      (try_bar (bar_offset_from_bar_and_datetime bar (start cycle)) (fun start_offset =>
       and_then (draw_label bar_begin_x bar_y start_offset true true
                   (Some (isoformat_minutes sc (start cycle))) (Some "|"%string))
      (try_bar (bar_offset_from_bar_and_datetime bar (end_ cycle)) (fun end_offset =>
       draw_label bar_begin_x bar_y end_offset true true
         (Some (isoformat_minutes sc (end_ cycle))) (Some "|"%string))))))
   | None =>
       try_bar (bar_offset_from_bar_and_datetime bar (start cycle)) (fun start_offset =>
       draw_label bar_begin_x bar_y start_offset
         (if visible cycle then true else false) true
         (Some (if visible cycle then "darkest"%string else "lightest"%string))
         (Some "|"%string))
   end))))))).

(** The row of an output that has one. *)
Definition row_of (o : Output) : option Z :=
  match o with
  | Print _ => None
  | At _ y _ => Some y
  end.


(** * [structlog_config.py]: the event dictionary *)

Module Structlog.

(** The values an event dictionary holds here: strings, ints, booleans and
    [None]. *)
Inductive value : Type :=
| VStr (s : string)
| VInt (n : Z)
| VBool (b : bool)
| VNone.

(** A Python [dict] with string keys: its items in insertion order, every
    key at most once. *)
Definition EventDict : Type := list (string * value).

Definition keys (d : EventDict) : list string := map fst d.

Definition wf (d : EventDict) : Prop := NoDup (keys d).

(** [d.get(key)], [None] standing for an absent key *)
Fixpoint get (key : string) (d : EventDict) : option value :=
  match d with
  | [] => None
  | (k, v) :: rest => if String.eqb k key then Some v else get key rest
  end.

(** The dictionary after [d.pop(key, default)] *)
Definition pop (key : string) (d : EventDict) : EventDict :=
  filter (fun kv => negb (String.eqb (fst kv) key)) d.

(** The dictionary after [d[key] = v]: the value is replaced where the key
    is, a new key goes to the end. *)
Fixpoint setitem (key : string) (v : value) (d : EventDict) : EventDict :=
  match d with
  | [] => [(key, v)]
  | (k, v') :: rest =>
      if String.eqb k key then (k, v) :: rest else (k, v') :: setitem key v rest
  end.

Inductive log_exn : Type :=
| KeyError
| TypeError_len.   (* object of type 'int' / 'bool' / 'NoneType' has no len() *)

Definition process_erase_undiffable_context (event_dict : EventDict) : EventDict :=
  let event_dict := pop "lineno" event_dict in
  let event_dict := pop "process" event_dict in
  let event_dict := pop "thread" event_dict in
  let event_dict := pop "timestamp" event_dict in
  event_dict.

Definition process_event_length_warning (event_dict : EventDict) : log_exn + EventDict :=
  let event_length_limit := 40 in
  match get "event" event_dict with
  | None => inl KeyError
  | Some (VStr s) =>
      let length := strlen s in
      if length >? event_length_limit then
        let event_dict := setitem "event_length" (VInt length) event_dict in
        let event_dict :=
          setitem "event_length_warning"
            (VStr ("Event surpasses recommended length of " ++ str event_length_limit ++ " chars"))
            event_dict in
        inr event_dict
      else inr event_dict
  | Some _ => inl TypeError_len
  end.

(** What [HumanConsoleRenderer.__call__] does to the event dictionary before
    it hands it to [ConsoleRenderer.__call__] (which is not modelled). *)
Definition human_console_prepare (event_dict : EventDict) : EventDict :=
  let filename := get "filename" event_dict in
  let event_dict := pop "filename" event_dict in
  let lineno := get "lineno" event_dict in
  let event_dict := pop "lineno" event_dict in
  match filename, lineno with
  | Some (VStr filename), Some (VInt lineno) =>
      setitem "filename_lineno" (VStr (filename ++ ":" ++ str lineno)) event_dict
  | Some (VStr filename), Some (VBool lineno) =>
      setitem "filename_lineno"
        (VStr (filename ++ ":" ++ (if lineno then "True" else "False"))) event_dict
  | Some (VStr filename), (None | Some VNone) =>
      setitem "filename_lineno" (VStr (filename ++ ":xx")) event_dict
  | _, _ => event_dict
  end.

(** An event as the processors receive it. *)
Definition event_example : EventDict :=
  [("event", VStr "Configured structlog"); ("level", VStr "debug");
   ("timestamp", VStr "2024-05-09T19:07:26.769326Z");
   ("filename", VStr "structlog_config.py"); ("lineno", VInt 122);
   ("func_name", VStr "<module>"); ("thread", VInt 1)]%string.

End Structlog.

(** * Rounding lemmas for binary64 *)

Lemma bpow_gt_0 e : (0 < bpow e)%R.
Proof. apply powerRZ_lt; lra. Qed.

Lemma bpow_add a b : bpow (a + b) = (bpow a * bpow b)%R.
Proof. apply powerRZ_add; lra. Qed.

Lemma bpow_IZR k : 0 <= k -> bpow k = IZR (2 ^ k).
Proof.
  intros Hk. unfold bpow. destruct k as [|p|p]; [reflexivity| |lia].
  change (2 ^ Z.pos p) with (Z.pow_pos 2 p). now rewrite Zpower_pos_powerRZ.
Qed.

Lemma bpow_opp a : bpow (- a) = (/ bpow a)%R.
Proof.
  assert (H := bpow_add a (- a)). replace (a + - a) with 0 in H by lia.
  change (bpow 0) with 1%R in H. assert (Ha := bpow_gt_0 a).
  apply Rmult_eq_reg_l with (bpow a); [|lra]. rewrite <- H. field. lra.
Qed.

Lemma bpow_le a b : a <= b -> (bpow a <= bpow b)%R.
Proof.
  intros H. replace b with (a + (b - a)) by lia. rewrite bpow_add.
  assert (Ha := bpow_gt_0 a).
  assert (1 <= bpow (b - a))%R.
  { rewrite bpow_IZR by lia. apply IZR_le. assert (0 < 2 ^ (b - a)) by (apply Z.pow_pos_nonneg; lia). lia. }
  nra.
Qed.

Lemma bpow_lt a b : a < b -> (bpow a < bpow b)%R.
Proof.
  intros H. replace b with (a + (b - a)) by lia. rewrite bpow_add.
  assert (Ha := bpow_gt_0 a).
  assert (2 <= bpow (b - a))%R.
  { rewrite bpow_IZR by lia. apply IZR_le.
    replace (b - a) with (1 + (b - a - 1)) by lia. rewrite Z.pow_add_r by lia.
    assert (0 < 2 ^ (b - a - 1)) by (apply Z.pow_pos_nonneg; lia). lia. }
  nra.
Qed.

Lemma bpow_lt_inv a b : (bpow a < bpow b)%R -> a < b.
Proof.
  intros H. destruct (Z_lt_le_dec a b) as [|Hle]; [assumption|].
  apply bpow_le in Hle. lra.
Qed.

Lemma bpow_succ a : bpow (a + 1) = (2 * bpow a)%R.
Proof. rewrite bpow_add. rewrite (bpow_IZR 1) by lia. change (2 ^ 1) with 2. ring. Qed.

Lemma digits2_size p : digits2_pos p = Pos.size p.
Proof. induction p; simpl; congruence. Qed.

Lemma digits_bounds p : 2 ^ (digits p - 1) <= Z.pos p < 2 ^ digits p.
Proof.
  unfold digits. rewrite digits2_size.
  assert (H1 := Pos.size_gt p). assert (H2 := Pos.size_le p).
  apply Pos2Z.pos_lt_pos in H1. apply Pos2Z.pos_le_pos in H2.
  rewrite Pos2Z.inj_pow in H1, H2.
  replace (Z.pos (Pos.size p)) with (1 + (Z.pos (Pos.size p) - 1)) in H2 by lia.
  rewrite Z.pow_add_r in H2 by lia. change (2 ^ 1) with 2 in H2.
  split; [lia|assumption].
Qed.

Lemma pow2_pos k : 0 < 2 ^ k \/ k < 0.
Proof. destruct (Z_lt_le_dec k 0); [right; lia|left; apply Z.pow_pos_nonneg; lia]. Qed.

Lemma pow2_lt_inv a b : 0 <= b -> 2 ^ a < 2 ^ b -> a < b.
Proof.
  intros Hb H. destruct (Z_lt_le_dec a b) as [|Hle]; [assumption|].
  assert (2 ^ b <= 2 ^ a) by (apply Z.pow_le_mono_r; lia). lia.
Qed.

Lemma digits_pos p : 0 < digits p.
Proof. unfold digits; lia. Qed.

Lemma digits_unique p d : 2 ^ (d - 1) <= Z.pos p < 2 ^ d -> digits p = d.
Proof.
  intros [H1 H2]. destruct (digits_bounds p) as [H3 H4].
  assert (Hp := digits_pos p).
  assert (0 < d).
  { destruct (Z_lt_le_dec 0 d) as [|Hd]; [assumption|].
    exfalso. destruct (Z.eq_dec d 0) as [->|Hn].
    - change (2 ^ 0) with 1 in H2. lia.
    - rewrite (Z.pow_neg_r 2 d) in H2 by lia. lia. }
  assert (d - 1 < digits p) by (apply pow2_lt_inv; lia).
  assert (digits p - 1 < d) by (apply pow2_lt_inv; lia).
  lia.
Qed.

Lemma IZR_xO p : IZR (Z.pos p~0) = (2 * IZR (Z.pos p))%R.
Proof. change (Z.pos p~0) with (2 * Z.pos p). now rewrite mult_IZR. Qed.

Lemma IZR_xI p : IZR (Z.pos p~1) = (2 * IZR (Z.pos p) + 1)%R.
Proof. change (Z.pos p~1) with (2 * Z.pos p + 1). now rewrite plus_IZR, mult_IZR. Qed.

Lemma shr_1_m mrs : 0 <= shr_m mrs -> shr_m (shr_1 mrs) = shr_m mrs / 2.
Proof.
  destruct mrs as [m r s]. simpl. intros Hm.
  destruct m as [|[p|p|]|]; simpl; try lia; try reflexivity.
  - apply Z.div_unique with 1; [lia|]. change (Z.pos p~1) with (2 * Z.pos p + 1). reflexivity.
  - apply Z.div_unique with 0; [lia|]. change (Z.pos p~0) with (2 * Z.pos p). lia.
Qed.

Lemma shr_1_repr mrs y :
  0 <= shr_m mrs -> repr mrs y -> repr (shr_1 mrs) (y / 2).
Proof.
  destruct mrs as [m r s]. unfold repr. simpl. intros Hm H.
  destruct m as [|[p|p|]|]; try lia;
    destruct r, s; simpl in *;
    try pose proof (IZR_xO p); try pose proof (IZR_xI p); lra.
Qed.

Lemma iter_pos_nat {A : Type} (f : A -> A) p x :
  SpecFloat.iter_pos f p x = Nat.iter (Pos.to_nat p) f x.
Proof.
  revert x. induction p as [p IH|p IH|]; intros x.
  - change (SpecFloat.iter_pos f p~1 x)
      with (SpecFloat.iter_pos f p (SpecFloat.iter_pos f p (f x))).
    rewrite !IH. rewrite Pos2Nat.inj_xI.
    replace (S (2 * Pos.to_nat p)) with (S (Pos.to_nat p + Pos.to_nat p))%nat by lia.
    rewrite Nat.iter_succ_r. now rewrite Nat.iter_add.
  - change (SpecFloat.iter_pos f p~0 x)
      with (SpecFloat.iter_pos f p (SpecFloat.iter_pos f p x)).
    rewrite !IH. rewrite Pos2Nat.inj_xO.
    replace (2 * Pos.to_nat p)%nat with (Pos.to_nat p + Pos.to_nat p)%nat by lia.
    now rewrite Nat.iter_add.
  - reflexivity.
Qed.

Lemma bpow_m1 : bpow (-1) = (/ 2)%R.
Proof. change (-1) with (Z.opp 1). rewrite bpow_opp. rewrite (bpow_IZR 1) by lia. reflexivity. Qed.

Lemma shr_iter n mrs y :
  0 <= shr_m mrs -> repr mrs y ->
  repr (Nat.iter n shr_1 mrs) (y * bpow (- Z.of_nat n))
  /\ shr_m (Nat.iter n shr_1 mrs) = shr_m mrs / 2 ^ Z.of_nat n.
Proof.
  intros Hm Hy. induction n as [|n [IH1 IH2]].
  - simpl. change (bpow (- 0)) with 1%R. rewrite Rmult_1_r, Z.div_1_r. auto.
  - assert (Hq : 0 <= shr_m (Nat.iter n shr_1 mrs)).
    { rewrite IH2. apply Z.div_pos; [assumption|]. apply Z.pow_pos_nonneg; lia. }
    rewrite Nat.iter_succ. split.
    + replace (- Z.of_nat (S n)) with (- Z.of_nat n + -1) by lia.
      rewrite bpow_add, bpow_m1, <- Rmult_assoc.
      apply shr_1_repr; assumption.
    + rewrite shr_1_m by assumption. rewrite IH2.
      rewrite Nat2Z.inj_succ, Z.pow_succ_r by lia.
      assert (0 < 2 ^ Z.of_nat n) by (apply Z.pow_pos_nonneg; lia).
      rewrite Z.div_div; try lia.
      f_equal. lia.
Qed.

Lemma shr_spec mrs e n y :
  0 <= shr_m mrs -> repr mrs y ->
  snd (shr mrs e n) = e + Z.max n 0
  /\ shr_m (fst (shr mrs e n)) = shr_m mrs / 2 ^ Z.max n 0
  /\ repr (fst (shr mrs e n)) (y * bpow (- Z.max n 0)).
Proof.
  intros Hm Hy. destruct n as [|p|p]; simpl.
  - change (bpow (- 0)) with 1%R. rewrite Rmult_1_r, Z.div_1_r, Z.add_0_r. auto.
  - rewrite iter_pos_nat. destruct (shr_iter (Pos.to_nat p) mrs y Hm Hy) as [H1 H2].
    rewrite positive_nat_Z in H1, H2.
    replace (Z.max (Z.pos p) 0) with (Z.pos p) by lia. auto.
  - replace (Z.max (Z.neg p) 0) with 0 by lia.
    change (bpow (- 0)) with 1%R. rewrite Rmult_1_r, Z.div_1_r, Z.add_0_r. auto.
Qed.

Lemma rne_spec m l y :
  inbetween m l y ->
  (Rabs (IZR (round_nearest_even m l) - y) <= / 2)%R
  /\ (round_nearest_even m l = m \/ round_nearest_even m l = m + 1)
  /\ (l = loc_Exact -> round_nearest_even m l = m).
Proof.
  intros H. destruct l as [|[| |]]; simpl in *.
  - subst y. split; [|auto]. rewrite Rminus_diag. rewrite Rabs_R0. lra.
  - subst y. destruct (Z.even m).
    + split; [|split; [auto|discriminate]]. apply Rabs_le. lra.
    + split; [|split; [auto|discriminate]]. rewrite plus_IZR. apply Rabs_le. lra.
  - split; [|split; [auto|discriminate]]. apply Rabs_le. lra.
  - split; [|split; [auto|discriminate]]. rewrite plus_IZR. apply Rabs_le. lra.
Qed.

Lemma loc_of_record_of_loc m l :
  loc_of_shr_record (shr_record_of_loc m l) = l /\ shr_m (shr_record_of_loc m l) = m.
Proof. destruct l as [|[| |]]; simpl; auto. Qed.

Lemma fexp_normal E : -1074 <= E - 53 -> fexp 53 1024 E = E - 53.
Proof. intros H. unfold fexp, emin. lia. Qed.

Lemma Rabs_scale (a b c : R) : (0 < c)%R -> (Rabs (a * c - b * c) = c * Rabs (a - b))%R.
Proof.
  intros Hc. replace (a * c - b * c)%R with (c * (a - b))%R by ring.
  rewrite Rabs_mult. rewrite (Rabs_pos_eq c) by lra. reflexivity.
Qed.

Lemma bra_spec s (m : positive) e l (y : R) :
  inbetween (Z.pos m) l y ->
  53 <= digits m ->
  -1074 <= digits m + e - 53 ->
  digits m + e <= 1023 ->
  exists m' e',
    binary_round_aux 53 1024 s (Z.pos m) e l = S754_finite s m' e'
    /\ digits m' = 53
    /\ (e' = digits m + e - 53 \/ e' = digits m + e - 52)
    /\ (Rabs (IZR (Z.pos m') * bpow e' - y * bpow e) <= bpow (digits m + e - 54))%R.
Proof.
  intros Hy Hd Hlo Hhi.
  unfold binary_round_aux, shr_fexp.
  change (Zdigits2 (Z.pos m)) with (digits m).
  rewrite fexp_normal by assumption.
  set (n1 := digits m + e - 53 - e).
  assert (Hn1 : n1 = digits m - 53) by (unfold n1; lia).
  destruct (loc_of_record_of_loc (Z.pos m) l) as [Hl Hm].
  assert (Hrep : repr (shr_record_of_loc (Z.pos m) l) y).
  { unfold repr. rewrite Hl, Hm. exact Hy. }
  assert (Hm0 : 0 <= shr_m (shr_record_of_loc (Z.pos m) l)) by (rewrite Hm; lia).
  destruct (shr_spec _ e n1 y Hm0 Hrep) as [He1 [Hq Hr]].
  destruct (shr (shr_record_of_loc (Z.pos m) l) e n1) as [mrs1 e1].
  simpl in He1, Hq, Hr.
  replace (Z.max n1 0) with n1 in * by lia.
  rewrite Hm in Hq.
  set (q := shr_m mrs1) in *.
  destruct (digits_bounds m) as [Hb1 Hb2].
  assert (Hp : 0 < 2 ^ n1) by (apply Z.pow_pos_nonneg; lia).
  assert (Hq1 : 2 ^ 52 <= q).
  { rewrite Hq. apply Z.div_le_lower_bound; [assumption|].
    replace (digits m - 1) with (n1 + 52) in Hb1 by lia.
    rewrite Z.pow_add_r in Hb1 by lia. lia. }
  assert (Hq2 : q < 2 ^ 53).
  { rewrite Hq. apply Z.div_lt_upper_bound; [assumption|].
    replace (digits m) with (n1 + 53) in Hb2 by lia.
    rewrite Z.pow_add_r in Hb2 by lia. lia. }
  destruct (rne_spec q (loc_of_shr_record mrs1) _ Hr) as [Hz1 [Hz2 _]].
  set (z := round_nearest_even q (loc_of_shr_record mrs1)) in *.
  assert (Hz3 : 2 ^ 52 <= z <= 2 ^ 53) by lia.
  assert (He1' : e1 = digits m + e - 53) by lia.
  assert (Herr : (Rabs (IZR z * bpow e1 - y * bpow e) <= bpow (digits m + e - 54))%R).
  { replace (bpow e) with (bpow (- n1) * bpow e1)%R
      by (rewrite <- bpow_add; f_equal; lia).
    rewrite <- Rmult_assoc. rewrite Rabs_scale by apply bpow_gt_0.
    replace (digits m + e - 54) with (e1 + -1) by lia.
    rewrite bpow_add, bpow_m1.
    assert (H0 := bpow_gt_0 e1). nra. }
  destruct z as [|pz|pz]; try (change (2 ^ 52) with 4503599627370496 in Hz3; lia).
  destruct (Z_lt_le_dec (Z.pos pz) (2 ^ 53)) as [Hlt|Hge].
  - assert (Hdz : digits pz = 53) by (apply digits_unique; lia).
    change (Zdigits2 (Z.pos pz)) with (digits pz). rewrite Hdz.
    rewrite fexp_normal by lia.
    replace (53 + e1 - 53 - e1) with 0 by lia.
    cbv beta iota delta [shr_record_of_loc shr shr_m shr_1 SpecFloat.iter_pos].
    replace (e1 <=? 1024 - 53) with true by (symmetry; apply Z.leb_le; lia).
    exists pz, e1. repeat split; auto.
  - assert (Hpz : Z.pos pz = 2 ^ 53) by lia.
    change (2 ^ 53) with (Z.pos 9007199254740992) in Hpz.
    injection Hpz as Hpz. subst pz.
    change (Zdigits2 (Z.pos 9007199254740992)) with 54.
    rewrite fexp_normal by lia.
    replace (54 + e1 - 53 - e1) with 1 by lia.
    cbv beta iota delta [shr_record_of_loc shr shr_m shr_1 SpecFloat.iter_pos].
    replace (e1 + 1 <=? 1024 - 53) with true by (symmetry; apply Z.leb_le; lia).
    exists 4503599627370496%positive, (e1 + 1). repeat split.
    + right. lia.
    + rewrite bpow_succ.
      replace (IZR (Z.pos 4503599627370496) * (2 * bpow e1))%R
        with (IZR (Z.pos 9007199254740992) * bpow e1)%R; [exact Herr|].
      change (Z.pos 9007199254740992) with (2 * Z.pos 4503599627370496).
      rewrite mult_IZR. ring.
Qed.

Lemma IZR_pow2_le m d : 2 ^ d <= m -> 0 <= d -> (bpow d <= IZR m)%R.
Proof. intros H Hd. rewrite bpow_IZR by assumption. now apply IZR_le. Qed.

Lemma IZR_pow2_lt m d : m < 2 ^ d -> 0 <= d -> (IZR m < bpow d)%R.
Proof. intros H Hd. rewrite bpow_IZR by assumption. now apply IZR_lt. Qed.

(** bounds of [m * 2^e] from the number of digits of [m] *)
Lemma mant_bounds m e :
  (bpow (digits m - 1 + e) <= IZR (Z.pos m) * bpow e < bpow (digits m + e))%R.
Proof.
  destruct (digits_bounds m) as [H1 H2]. assert (Hd := digits_pos m).
  assert (He := bpow_gt_0 e). rewrite !bpow_add.
  apply IZR_pow2_le in H1; [|lia]. apply IZR_pow2_lt in H2; [|lia].
  split; nra.
Qed.

Lemma pfloat_bounds x v : pfloat x v ->
  exists e, (bpow (52 + e) <= v < bpow (53 + e))%R.
Proof.
  intros (m & e & _ & Hd & ->). exists e. generalize (mant_bounds m e). rewrite Hd.
  replace (53 - 1 + e) with (52 + e) by lia. auto.
Qed.

Lemma pfloat_pos x v : pfloat x v -> (0 < v)%R.
Proof.
  intros H. destruct (pfloat_bounds x v H) as [e [H1 _]].
  assert (H0 := bpow_gt_0 (52 + e)). lra.
Qed.

(** rounding of a positive real located by [(m, l)] at exponent [e], in the
    normal range: the result is a normalised float within relative error
    [2^-53] *)
Lemma bra_rel (m : positive) e l (y : R) :
  inbetween (Z.pos m) l y ->
  53 <= digits m ->
  (bpow (-1022) <= y * bpow e < bpow 1023)%R ->
  exists v, pfloat (binary_round_aux 53 1024 false (Z.pos m) e l) v
    /\ (Rabs (v - y * bpow e) <= u53 * (y * bpow e))%R.
Proof.
  intros Hy Hd [Hlo Hhi].
  assert (Hym : (IZR (Z.pos m) <= y < IZR (Z.pos m) + 1)%R).
  { destruct l as [|[| |]]; simpl in Hy; lra. }
  destruct (digits_bounds m) as [Hb1 Hb2]. assert (Hdp := digits_pos m).
  assert (He := bpow_gt_0 e).
  assert (Hx1 : (bpow (digits m - 1 + e) <= y * bpow e)%R).
  { destruct (mant_bounds m e) as [H1 _]. nra. }
  assert (Hx2 : (y * bpow e < bpow (digits m + e))%R).
  { rewrite bpow_add. apply Rmult_lt_compat_r; [assumption|].
    apply Rlt_le_trans with (IZR (Z.pos m) + 1)%R; [lra|].
    rewrite <- (plus_IZR _ 1). rewrite bpow_IZR by lia. apply IZR_le. lia. }
  assert (Hr1 : -1022 < digits m + e) by (apply bpow_lt_inv; lra).
  assert (Hr2 : digits m - 1 + e < 1023) by (apply bpow_lt_inv; lra).
  destruct (bra_spec false m e l y Hy Hd) as (m' & e' & Heq & Hd' & _ & Herr); try lia.
  exists (IZR (Z.pos m') * bpow e')%R. split.
  - exists m', e'. auto.
  - eapply Rle_trans; [exact Herr|]. unfold u53.
    replace (digits m + e - 54) with (-53 + (digits m - 1 + e)) by lia.
    rewrite bpow_add. assert (H53 := bpow_gt_0 (-53)). nra.
Qed.

(** an exactly representable mantissa is kept as it is *)
Lemma bra_exact s (m : positive) e :
  digits m = 53 -> -1074 <= e <= 970 ->
  binary_round_aux 53 1024 s (Z.pos m) e loc_Exact = S754_finite s m e.
Proof.
  intros Hd He. unfold binary_round_aux, shr_fexp.
  change (Zdigits2 (Z.pos m)) with (digits m). rewrite Hd.
  rewrite fexp_normal by lia. replace (53 + e - 53 - e) with 0 by lia. cbv beta iota delta [shr_record_of_loc shr shr_m shr_1 SpecFloat.iter_pos round_nearest_even loc_of_shr_record].
  change (Zdigits2 (Z.pos m)) with (digits m). rewrite Hd.
  rewrite fexp_normal by lia. replace (53 + e - 53 - e) with 0 by lia. cbv beta iota delta [shr_record_of_loc shr shr_m shr_1 SpecFloat.iter_pos round_nearest_even loc_of_shr_record].
  replace (e <=? 1024 - 53) with true by (symmetry; apply Z.leb_le; lia). reflexivity.
Qed.

Lemma digits_lower m k : 0 <= k -> 2 ^ k <= Z.pos m -> k < digits m.
Proof.
  intros Hk H. destruct (digits_bounds m) as [_ H2]. assert (Hd := digits_pos m).
  apply pow2_lt_inv; lia.
Qed.

Lemma digits_53_lower m : digits m = 53 -> 2 ^ 52 <= Z.pos m < 2 ^ 53.
Proof. intros H. generalize (digits_bounds m). rewrite H. auto. Qed.

Lemma mul_pfloat x y vx vy :
  pfloat x vx -> pfloat y vy ->
  (bpow (-1022) <= vx * vy < bpow 1023)%R ->
  exists v, pfloat (SFmul 53 1024 x y) v
    /\ (Rabs (v - vx * vy) <= u53 * (vx * vy))%R.
Proof.
  intros (mx & ex & -> & Hdx & ->) (my & ey & -> & Hdy & ->) Hr.
  simpl SFmul.
  assert (Hv : (IZR (Z.pos (mx * my)) * bpow (ex + ey)
                = IZR (Z.pos mx) * bpow ex * (IZR (Z.pos my) * bpow ey))%R).
  { rewrite Pos2Z.inj_mul, mult_IZR, bpow_add. ring. }
  rewrite <- Hv in *.
  apply bra_rel; [reflexivity| |assumption].
  apply digits_53_lower in Hdx, Hdy.
  assert (52 < digits (mx * my)); [|lia].
  apply digits_lower; [lia|]. rewrite Pos2Z.inj_mul.
  change (2 ^ 52) with 4503599627370496 in *. nia.
Qed.

Lemma iter_xO m d : Z.pos (Pos.iter xO m d) = Z.pos m * 2 ^ Z.pos d.
Proof.
  induction d as [|d IH] using Pos.peano_ind.
  - simpl. lia.
  - rewrite Pos.iter_succ. rewrite Pos2Z.inj_succ, Z.pow_succ_r by lia.
    change (Z.pos (Pos.iter xO m d)~0) with (2 * Z.pos (Pos.iter xO m d)). rewrite IH. ring.
Qed.

(** [binary_round] of a mantissa of at most 53 digits, in the normal range,
    is exact *)
Lemma binary_round_exact m e :
  digits m <= 53 -> -1074 <= digits m + e - 53 -> digits m + e <= 1023 ->
  pfloat (binary_round 53 1024 false m e) (IZR (Z.pos m) * bpow e).
Proof.
  intros Hd Hlo Hhi. unfold binary_round, shl_align.
  change (Z.pos (digits2_pos m)) with (digits m).
  rewrite fexp_normal by assumption.
  destruct (digits m + e - 53 - e) as [|d|d] eqn:Ed; try lia.
  - rewrite bra_exact by lia. exists m, e. repeat split. lia.
  - assert (Hmz : Z.pos (Pos.iter xO m d) = Z.pos m * 2 ^ Z.pos d) by apply iter_xO.
    destruct (digits_bounds m) as [H1 H2]. assert (Hp := digits_pos m).
    assert (Hdz : digits (Pos.iter xO m d) = 53).
    { apply digits_unique. rewrite Hmz.
      replace 53 with (digits m + Z.pos d) at 2 by lia.
      replace (53 - 1) with (digits m - 1 + Z.pos d) by lia.
      rewrite !Z.pow_add_r by lia.
      assert (0 < 2 ^ Z.pos d) by (apply Z.pow_pos_nonneg; lia). nia. }
    rewrite bra_exact by lia.
    exists (Pos.iter xO m d), (digits m + e - 53). repeat split; [assumption|].
    rewrite Hmz, mult_IZR. rewrite <- (bpow_IZR (Z.pos d)) by lia.
    rewrite Rmult_assoc, <- bpow_add. do 2 f_equal. lia.
Qed.

(** and of a longer mantissa, correctly rounded *)
Lemma binary_round_rel m e :
  53 <= digits m ->
  (bpow (-1022) <= IZR (Z.pos m) * bpow e < bpow 1023)%R ->
  exists v, pfloat (binary_round 53 1024 false m e) v
    /\ (Rabs (v - IZR (Z.pos m) * bpow e) <= u53 * (IZR (Z.pos m) * bpow e))%R.
Proof.
  intros Hd Hr. unfold binary_round, shl_align.
  change (Z.pos (digits2_pos m)) with (digits m).
  destruct (mant_bounds m e) as [Hb1 Hb2].
  assert (Hr1 : -1022 < digits m + e) by (apply bpow_lt_inv; lra).
  rewrite fexp_normal by lia.
  destruct (digits m + e - 53 - e) as [|d|d] eqn:Ed; try lia;
    (apply bra_rel; [reflexivity|assumption|assumption]).
Qed.

Lemma of_int_pfloat n :
  0 < n < 2 ^ 53 ->
  pfloat (binary_normalize 53 1024 n 0 false) (IZR n).
Proof.
  intros Hn. destruct n as [|p|p]; try lia. simpl binary_normalize.
  replace (IZR (Z.pos p)) with (IZR (Z.pos p) * bpow 0)%R
    by (change (bpow 0) with 1%R; ring).
  assert (Hp := digits_pos p).
  assert (digits p <= 53).
  { destruct (Z_lt_le_dec 53 (digits p)) as [H|H]; [|lia].
    destruct (digits_bounds p) as [H1 _].
    assert (2 ^ 53 <= 2 ^ (digits p - 1)) by (apply Z.pow_le_mono_r; lia). lia. }
  apply binary_round_exact; lia.
Qed.

Lemma new_location_spec n r q :
  0 < n -> 0 <= r < n ->
  inbetween q (new_location n r) (IZR q + IZR r / IZR n).
Proof.
  intros Hn Hr.
  assert (HnR : (0 < IZR n)%R) by (apply IZR_lt; lia).
  set (t := (IZR r / IZR n)%R).
  assert (Ht : (t * IZR n = IZR r)%R) by (unfold t; field; lra).
  assert (Hr0 : (0 <= IZR r)%R) by (apply IZR_le; lia).
  assert (Hrn : (IZR r < IZR n)%R) by (apply IZR_lt; lia).
  unfold new_location, new_location_even, new_location_odd.
  destruct (Z.even n) eqn:Ev.
  - destruct (Z.eqb_spec r 0) as [->|Hne].
    + simpl. unfold t. change (IZR 0) with 0%R in *. nra.
    + assert (Hr1 : (1 <= IZR r)%R) by (apply IZR_le; lia).
      destruct (Z.compare_spec (2 * r) n) as [H|H|H]; simpl.
      * apply (f_equal IZR) in H. rewrite mult_IZR in H. nra.
      * apply IZR_lt in H. rewrite mult_IZR in H. nra.
      * apply IZR_lt in H. rewrite mult_IZR in H. nra.
  - destruct (Z.eqb_spec r 0) as [->|Hne].
    + simpl. change (IZR 0) with 0%R in *. nra.
    + assert (Hr1 : (1 <= IZR r)%R) by (apply IZR_le; lia).
      assert (Hodd : Z.odd n = true) by (rewrite <- Z.negb_even, Ev; reflexivity).
      apply Z.odd_spec in Hodd. destruct Hodd as [k Hk].
      destruct (Z.compare_spec (2 * r + 1) n) as [H|H|H]; simpl.
      * assert (H' : 2 * r < n) by lia. apply IZR_lt in H'. rewrite mult_IZR in H'. nra.
      * assert (H' : 2 * r < n) by lia. apply IZR_lt in H'. rewrite mult_IZR in H'. nra.
      * assert (H' : n < 2 * r) by lia. apply IZR_lt in H'. rewrite mult_IZR in H'. nra.
Qed.

(** the quotient of two positive "mantissa, exponent" pairs, correctly
    rounded *)
Lemma div_core_rel m1 e1 m2 e2 :
  let x := (IZR (Z.pos m1) * bpow e1 / (IZR (Z.pos m2) * bpow e2))%R in
  (bpow (-1021) <= x < bpow 1023)%R ->
  exists v,
    pfloat (let '(mz, ez, lz) := SFdiv_core_binary 53 1024 (Z.pos m1) e1 (Z.pos m2) e2 in
            binary_round_aux 53 1024 false mz ez lz) v
    /\ (Rabs (v - x) <= u53 * x)%R.
Proof.
  intros x Hx.
  destruct (mant_bounds m1 e1) as [Ha1 Ha2]. destruct (mant_bounds m2 e2) as [Hb1 Hb2].
  assert (H2pos : (0 < IZR (Z.pos m2) * bpow e2)%R).
  { assert (H := bpow_gt_0 (digits m2 - 1 + e2)). lra. }
  assert (Hm2nz : IZR (Z.pos m2) <> 0%R) by (apply not_0_IZR; lia).
  assert (He2nz : bpow e2 <> 0%R) by (assert (H := bpow_gt_0 e2); lra).
  assert (Hxb : (x < bpow (digits m1 + e1 - (digits m2 - 1 + e2)))%R).
  { unfold x. apply Rmult_lt_reg_r with (IZR (Z.pos m2) * bpow e2)%R; [assumption|].
    replace (IZR (Z.pos m1) * bpow e1 / (IZR (Z.pos m2) * bpow e2) * (IZR (Z.pos m2) * bpow e2))%R
      with (IZR (Z.pos m1) * bpow e1)%R by (field; auto).
    apply Rlt_le_trans with (bpow (digits m1 + e1)); [lra|].
    replace (digits m1 + e1) with ((digits m1 + e1 - (digits m2 - 1 + e2)) + (digits m2 - 1 + e2)) at 1 by lia.
    rewrite bpow_add.
    assert (H := bpow_gt_0 (digits m1 + e1 - (digits m2 - 1 + e2))). nra. }
  assert (HE : -1021 < digits m1 + e1 - (digits m2 - 1 + e2)) by (apply bpow_lt_inv; lra).
  unfold SFdiv_core_binary.
  change (Zdigits2 (Z.pos m1)) with (digits m1). change (Zdigits2 (Z.pos m2)) with (digits m2).
  rewrite fexp_normal by lia.
  set (e' := Z.min (digits m1 + e1 - (digits m2 + e2) - 53) (e1 - e2)).
  set (s := e1 - e2 - e').
  assert (Hs : 0 <= s) by (unfold s, e'; lia).
  assert (Hs2 : 53 - digits m1 + digits m2 <= s) by (unfold s, e'; lia).
  set (m' := match s with Z.pos _ => Z.shiftl (Z.pos m1) s | 0 => Z.pos m1 | Z.neg _ => 0 end).
  assert (Hm' : m' = Z.pos m1 * 2 ^ s).
  { unfold m'. destruct s as [|p|p] eqn:Es; try lia.
    rewrite Z.shiftl_mul_pow2 by lia. reflexivity. }
  assert (Hdm := Z_div_mod m' (Z.pos m2) ltac:(lia)).
  destruct (Z.div_eucl m' (Z.pos m2)) as [q r]. destruct Hdm as [Hqr Hr].
  destruct (digits_bounds m1) as [Hd1 _]. destruct (digits_bounds m2) as [_ Hd2].
  assert (Hp1 := digits_pos m1). assert (Hp2 := digits_pos m2).
  assert (Hq : 2 ^ 52 <= q).
  { destruct (Z_lt_le_dec q (2 ^ 52)) as [Hlt|]; [exfalso|assumption].
    assert (Hpow : 2 ^ (digits m2 + 52) <= m').
    { rewrite Hm'. apply Z.le_trans with (2 ^ (digits m1 - 1) * 2 ^ s).
      - rewrite <- Z.pow_add_r by lia. apply Z.pow_le_mono_r; lia.
      - apply Z.mul_le_mono_nonneg_r; [apply Z.pow_nonneg; lia|assumption]. }
    rewrite Z.pow_add_r in Hpow by lia.
    assert (0 < 2 ^ 52) by (apply Z.pow_pos_nonneg; lia). nia. }
  destruct q as [|pq|pq]; try (change (2 ^ 52) with 4503599627370496 in Hq; lia).
  assert (Hy : (IZR m' / IZR (Z.pos m2) = IZR (Z.pos pq) + IZR r / IZR (Z.pos m2))%R).
  { rewrite Hqr, plus_IZR, mult_IZR. field. auto. }
  assert (Hxy : (IZR m' / IZR (Z.pos m2) * bpow e' = x)%R).
  { unfold x. rewrite Hm', mult_IZR. rewrite <- (bpow_IZR s) by assumption.
    assert (Hbe : (bpow e1 = bpow s * bpow e' * bpow e2)%R)
      by (rewrite <- !bpow_add; f_equal; unfold s; lia).
    rewrite Hbe. field. auto. }
  rewrite <- Hxy in *.
  apply bra_rel.
  - rewrite Hy. apply new_location_spec; lia.
  - assert (52 < digits pq); [apply digits_lower; lia|lia].
  - assert (H := bpow_le (-1022) (-1021) ltac:(lia)). lra.
Qed.

Lemma div_pfloat x y vx vy :
  pfloat x vx -> pfloat y vy ->
  (bpow (-1021) <= vx / vy < bpow 1023)%R ->
  exists v, pfloat (SFdiv 53 1024 x y) v
    /\ (Rabs (v - vx / vy) <= u53 * (vx / vy))%R.
Proof.
  intros (mx & ex & -> & Hdx & ->) (my & ey & -> & Hdy & ->) Hr.
  simpl SFdiv. apply div_core_rel. exact Hr.
Qed.

(** ** Addition, truncation, and conversions *)

Lemma shl_align_val m e e' : e' <= e ->
  Z.pos (fst (shl_align m e e')) = Z.pos m * 2 ^ (e - e').
Proof.
  intros H. unfold shl_align. destruct (e' - e) as [|d|d] eqn:Hd.
  - replace (e - e') with 0 by lia. simpl. lia.
  - lia.
  - cbn [fst]. rewrite iter_xO. f_equal. f_equal. lia.
Qed.

Lemma add_pfloat x y vx vy :
  pfloat x vx -> pfloat y vy ->
  (bpow (-1022) <= vx + vy < bpow 1023)%R ->
  exists v, pfloat (SFadd 53 1024 x y) v
    /\ (Rabs (v - (vx + vy)) <= u53 * (vx + vy))%R.
Proof.
  intros [mx [ex [-> [Hdx ->]]]] [my [ey [-> [Hdy ->]]]] Hb.
  cbn [SFadd cond_Zopp].
  set (ez := Z.min ex ey).
  assert (Hax := shl_align_val mx ex ez ltac:(unfold ez; lia)).
  assert (Hay := shl_align_val my ey ez ltac:(unfold ez; lia)).
  set (a := fst (shl_align mx ex ez)) in *.
  set (b := fst (shl_align my ey ez)) in *.
  change (Z.pos a + Z.pos b) with (Z.pos (a + b)).
  cbn [binary_normalize].
  assert (Hpx : 0 < 2 ^ (ex - ez)) by (apply Z.pow_pos_nonneg; unfold ez; lia).
  assert (Hpy : 0 < 2 ^ (ey - ez)) by (apply Z.pow_pos_nonneg; unfold ez; lia).
  assert (Hval : (IZR (Z.pos (a + b)) * bpow ez = IZR (Z.pos mx) * bpow ex + IZR (Z.pos my) * bpow ey)%R).
  { rewrite Pos2Z.inj_add, plus_IZR, Hax, Hay, !mult_IZR.
    rewrite <- !bpow_IZR by (unfold ez; lia).
    replace ex with ((ex - ez) + ez) at 2 by lia.
    replace ey with ((ey - ez) + ez) at 2 by lia.
    rewrite !bpow_add. ring. }
  assert (Hd : 53 <= digits (a + b)).
  { assert (52 < digits (a + b)); [|lia].
    apply digits_lower; [lia|].
    pose proof (digits_53_lower mx Hdx). nia. }
  rewrite <- Hval in *.
  apply binary_round_rel; [exact Hd|exact Hb].
Qed.

(** Splitting a dyadic number into its integral and fractional part. *)
Lemma div_pow2_R m k : 0 <= m -> 0 < k ->
  (IZR m * bpow (- k) = IZR (m / 2 ^ k) + IZR (m mod 2 ^ k) * bpow (- k))%R
  /\ (0 <= IZR (m mod 2 ^ k) * bpow (- k) < 1)%R.
Proof.
  intros Hm Hk.
  assert (Hp : 0 < 2 ^ k) by (apply Z.pow_pos_nonneg; lia).
  pose proof (Z.div_mod m (2 ^ k) ltac:(lia)) as Hdm.
  pose proof (Z.mod_pos_bound m (2 ^ k) Hp) as Hr.
  assert (Hone : (IZR (2 ^ k) * bpow (- k) = 1)%R).
  { rewrite <- bpow_IZR by lia. rewrite <- bpow_add.
    replace (k + - k) with 0 by lia. reflexivity. }
  pose proof (bpow_gt_0 (- k)) as Hb.
  split.
  - rewrite Hdm at 1. rewrite plus_IZR, mult_IZR.
    replace ((IZR (2 ^ k) * IZR (m / 2 ^ k) + IZR (m mod 2 ^ k)) * bpow (- k))%R
      with (IZR (m / 2 ^ k) * (IZR (2 ^ k) * bpow (- k)) + IZR (m mod 2 ^ k) * bpow (- k))%R by ring.
    rewrite Hone. ring.
  - assert (H0 : (0 <= IZR (m mod 2 ^ k))%R) by (apply IZR_le; lia).
    assert (H1 : (IZR (m mod 2 ^ k) < IZR (2 ^ k))%R) by (apply IZR_lt; lia).
    split; [apply Rmult_le_pos; lra|].
    rewrite <- Hone. apply Rmult_lt_compat_r; assumption.
Qed.

(** Real value of a finite positive float's integer shift. *)
Lemma shiftl_R m e : 0 <= e -> (IZR (Z.shiftl m e) = IZR m * bpow e)%R.
Proof.
  intros He. rewrite Z.shiftl_mul_pow2 by lia. rewrite mult_IZR, bpow_IZR by lia. reflexivity.
Qed.

(** [int(x)] of a positive float is the floor of its value. *)
Lemma to_int_floor m e :
  exists k, PyFloat.to_int (S754_finite false m e) = Ok k
    /\ (IZR k <= IZR (Z.pos m) * bpow e < IZR k + 1)%R.
Proof.
  unfold PyFloat.to_int. eexists. split; [reflexivity|].
  destruct e as [|p|p].
  - rewrite shiftl_R by lia. lra.
  - rewrite shiftl_R by lia. lra.
  - rewrite Z.shiftr_div_pow2 by lia.
    destruct (div_pow2_R (Z.pos m) (Z.pos p) ltac:(lia) ltac:(lia)) as [Heq Hfr].
    change (Z.neg p) with (- Z.pos p). rewrite Heq. lra.
Qed.




Lemma f_1_0_pfloat : pfloat PyFloat.f_1_0 1.
Proof. exact (of_int_pfloat 1 ltac:(lia)). Qed.





(** [float(n)] for a positive int below [2**53] is exact. *)
Lemma of_int_Ok n : 0 < n < 2 ^ 53 ->
  exists x, PyFloat.of_int n = Ok x /\ pfloat x (IZR n).
Proof.
  intros H. pose proof (of_int_pfloat n H) as Hp.
  unfold PyFloat.of_int. change PyFloat.prec with 53. change PyFloat.emax with 1024.
  exists (binary_normalize 53 1024 n 0 false). split; [|exact Hp].
  destruct Hp as [m [e [-> _]]]. reflexivity.
Qed.


(** ** Accumulating relative errors *)

Lemma u53_val : u53 = (/ 9007199254740992)%R.
Proof.
  unfold u53. change (-53) with (- (53)). rewrite bpow_opp, (bpow_IZR 53) by lia. reflexivity.
Qed.

Lemma bpow_100 : bpow 100 = 1267650600228229401496703205376%R.
Proof. rewrite (bpow_IZR 100) by lia. reflexivity. Qed.

Lemma bpow_m100 : bpow (-100) = (/ 1267650600228229401496703205376)%R.
Proof. change (-100) with (- (100)). rewrite bpow_opp, bpow_100. reflexivity. Qed.

(** The range every intermediate value of this program stays in. *)
Lemma range_100 (v : R) :
  (/ 1267650600228229401496703205376 <= v <= 1267650600228229401496703205376)%R ->
  (bpow (-1021) <= v < bpow 1023)%R /\ (bpow (-1022) <= v)%R /\ (bpow (-900) <= v)%R.
Proof.
  intros H. pose proof bpow_100. pose proof bpow_m100.
  pose proof (bpow_le (-1021) (-100) ltac:(lia)).
  pose proof (bpow_le (-1022) (-100) ltac:(lia)).
  pose proof (bpow_le (-900) (-100) ltac:(lia)).
  pose proof (bpow_lt 100 1023 ltac:(lia)).
  repeat split; lra.
Qed.

Lemma approx_intro v x : (0 < x)%R -> (Rabs (v - x) <= u53 * x)%R -> approx v x u53.
Proof. intros. split; assumption. Qed.

Lemma approx_bounds v x eps :
  approx v x eps -> ((1 - eps) * x <= v <= (1 + eps) * x)%R.
Proof.
  intros [Hx H]. pose proof (Rle_abs (v - x)). pose proof (Rle_abs (- (v - x))).
  rewrite Rabs_Ropp in *. lra.
Qed.

Lemma approx_exact x : (0 < x)%R -> approx x x 0.
Proof. intros H. split; [exact H|]. replace (x - x)%R with 0%R by ring. rewrite Rabs_R0. lra. Qed.

Lemma approx_mul_round v1 x1 a v2 x2 b v :
  approx v1 x1 a -> approx v2 x2 b -> (0 <= a <= 1)%R -> (0 <= b <= 1)%R ->
  (Rabs (v - v1 * v2) <= u53 * (v1 * v2))%R ->
  approx v (x1 * x2) ((1 + a) * (1 + b) * (1 + u53) - 1).
Proof.
  intros H1 H2 Ha Hb Hv.
  pose proof (approx_bounds _ _ _ H1) as B1. pose proof (approx_bounds _ _ _ H2) as B2.
  destruct H1 as [Hx1 _]. destruct H2 as [Hx2 _].
  assert (Hu : (0 < u53 < 1)%R) by (rewrite u53_val; lra).
  assert (HP : (0 < x1 * x2)%R) by (apply Rmult_lt_0_compat; assumption).
  split; [exact HP|].
  assert (Hv1 : (0 <= v1)%R) by nra. assert (Hv2 : (0 <= v2)%R) by nra.
  assert (Hup : (v1 * v2 <= ((1 + a) * x1) * ((1 + b) * x2))%R).
  { apply Rmult_le_compat; lra. }
  assert (Hlo : (((1 - a) * x1) * ((1 - b) * x2) <= v1 * v2)%R).
  { apply Rmult_le_compat; try lra; nra. }
  assert (Hvv : (0 <= v1 * v2)%R) by (apply Rmult_le_pos; assumption).
  pose proof (Rle_abs (v - v1 * v2)) as Hv'. pose proof (Rle_abs (- (v - v1 * v2))) as Hv''.
  rewrite Rabs_Ropp in Hv''.
  assert (Hvup : (v <= (1 + u53) * (((1 + a) * x1) * ((1 + b) * x2)))%R).
  { apply Rle_trans with ((1 + u53) * (v1 * v2))%R; [lra|].
    apply Rmult_le_compat_l; lra. }
  assert (Hvlo : ((1 - u53) * (((1 - a) * x1) * ((1 - b) * x2)) <= v)%R).
  { apply Rle_trans with ((1 - u53) * (v1 * v2))%R; [|lra].
    apply Rmult_le_compat_l; lra. }
  assert (Hpoly : (1 - (1 - u53) * ((1 - a) * (1 - b)) <= (1 + a) * (1 + b) * (1 + u53) - 1)%R).
  { assert (0 <= a * b)%R by (apply Rmult_le_pos; lra).
    assert (0 <= a * u53)%R by (apply Rmult_le_pos; lra).
    assert (0 <= b * u53)%R by (apply Rmult_le_pos; lra).
    nra. }
  apply Rabs_le. split.
  - apply Rle_trans with (- ((1 - (1 - u53) * ((1 - a) * (1 - b))) * (x1 * x2)))%R.
    + apply Ropp_le_contravar. apply Rmult_le_compat_r; lra.
    + replace ((1 - u53) * ((1 - a) * x1 * ((1 - b) * x2)))%R
        with ((1 - u53) * ((1 - a) * (1 - b)) * (x1 * x2))%R in Hvlo by ring.
      lra.
  - replace ((1 + u53) * ((1 + a) * x1 * ((1 + b) * x2)))%R
      with ((1 + a) * (1 + b) * (1 + u53) * (x1 * x2))%R in Hvup by ring.
    lra.
Qed.

Lemma prod_range (v1 v2 lo1 hi1 lo2 hi2 : R) :
  (0 <= lo1 <= v1)%R -> (v1 <= hi1)%R -> (0 <= lo2 <= v2)%R -> (v2 <= hi2)%R ->
  (lo1 * lo2 <= v1 * v2 <= hi1 * hi2)%R.
Proof. intros. split; apply Rmult_le_compat; lra. Qed.

Lemma inv_range (x lo hi : R) :
  (0 < lo <= x)%R -> (x <= hi)%R -> (/ hi <= / x <= / lo)%R.
Proof. intros. split; apply Rinv_le_contravar; lra. Qed.

Lemma IZR_range (n lo hi : Z) : lo <= n <= hi -> (IZR lo <= IZR n <= IZR hi)%R.
Proof. intros [H1 H2]. split; apply IZR_le; assumption. Qed.

(** ** The floats of [bar_from_cycle_and_length] *)

Lemma div_Ok x y vx vy :
  pfloat x vx -> pfloat y vy ->
  (bpow (-1021) <= vx / vy < bpow 1023)%R ->
  exists z v, PyFloat.div x y = Ok z /\ pfloat z v
    /\ (Rabs (v - vx / vy) <= u53 * (vx / vy))%R.
Proof.
  intros Hx Hy Hr. destruct (div_pfloat x y vx vy Hx Hy Hr) as [v [Hp He]].
  exists (SFdiv 53 1024 x y), v. split; [|split; assumption].
  unfold PyFloat.div. destruct Hy as [m [e [-> _]]]. reflexivity.
Qed.









(** ** The floats of [bar_offset_from_bar_and_percent] *)

Lemma f_0_5_pfloat : pfloat PyFloat.f_0_5 (/ 2).
Proof.
  pose proof (binary_round_exact 1 (-1)) as H.
  rewrite bpow_m1, Rmult_1_l in H. apply H; vm_compute; congruence.
Qed.

Lemma approx_div_round x1 v2 x2 b v :
  (0 < x1)%R -> approx v2 x2 b -> (0 <= b <= / 2)%R ->
  (Rabs (v - x1 / v2) <= u53 * (x1 / v2))%R ->
  approx v (x1 / x2) ((1 + 2 * b) * (1 + u53) - 1).
Proof.
  intros Hx1 H2 Hb Hv.
  pose proof (approx_bounds _ _ _ H2) as B2. destruct H2 as [Hx2 _].
  assert (Hu : (0 < u53 < 1)%R) by (rewrite u53_val; lra).
  assert (Hv2 : (0 < v2)%R) by nra.
  set (X := (x1 / x2)%R). set (q := (x1 / v2)%R) in *.
  assert (HX : (X * x2 = x1)%R) by (unfold X; field; lra).
  assert (Hq : (q * v2 = x1)%R) by (unfold q; field; lra).
  assert (HXpos : (0 < X)%R) by (unfold X; apply Rdiv_lt_0_compat; assumption).
  assert (Hqpos : (0 < q)%R) by (unfold q; apply Rdiv_lt_0_compat; assumption).
  split; [exact HXpos|].
  assert (Hqup : (q <= (1 + 2 * b) * X)%R).
  { apply Rmult_le_reg_r with v2; [exact Hv2|]. rewrite Hq.
    apply Rle_trans with ((1 + 2 * b) * X * ((1 - b) * x2))%R.
    - replace ((1 + 2 * b) * X * ((1 - b) * x2))%R with ((1 + 2 * b) * (1 - b) * x1)%R
        by (rewrite <- HX; ring).
      assert (1 <= (1 + 2 * b) * (1 - b))%R by nra.
      nra.
    - apply Rmult_le_compat_l; [|lra].
      apply Rmult_le_pos; lra. }
  assert (Hqlo : ((1 - b) * X <= q)%R).
  { apply Rmult_le_reg_r with v2; [exact Hv2|]. rewrite Hq.
    apply Rle_trans with ((1 - b) * X * ((1 + b) * x2))%R.
    - apply Rmult_le_compat_l; [|lra].
      apply Rmult_le_pos; lra.
    - replace ((1 - b) * X * ((1 + b) * x2))%R with ((1 - b) * (1 + b) * x1)%R
        by (rewrite <- HX; ring).
      assert ((1 - b) * (1 + b) <= 1)%R by nra.
      nra. }
  pose proof (Rle_abs (v - q)) as Hv'. pose proof (Rle_abs (- (v - q))) as Hv''.
  rewrite Rabs_Ropp in Hv''.
  assert (Hvup : (v <= (1 + u53) * ((1 + 2 * b) * X))%R).
  { apply Rle_trans with ((1 + u53) * q)%R; [lra|]. apply Rmult_le_compat_l; lra. }
  assert (Hvlo : ((1 - u53) * ((1 - b) * X) <= v)%R).
  { apply Rle_trans with ((1 - u53) * q)%R; [|lra]. apply Rmult_le_compat_l; lra. }
  assert (Hpoly : (1 - (1 - u53) * (1 - b) <= (1 + 2 * b) * (1 + u53) - 1)%R).
  { assert (0 <= b * u53)%R by (apply Rmult_le_pos; lra). nra. }
  apply Rabs_le. split.
  - apply Rle_trans with (- ((1 - (1 - u53) * (1 - b)) * X))%R.
    + apply Ropp_le_contravar. apply Rmult_le_compat_r; lra.
    + lra.
  - lra.
Qed.

(** The offset of an integer percentage between 1 and 100 on a bar of
    fewer than [2^40] slots is an integer nearest to [p * L / 100]. *)
Lemma percent_spec (bar : Bar) (p : Z) :
  0 < len (slots bar) < 2 ^ 40 -> 0 < p <= 100 ->
  exists fp k,
    PyFloat.of_int p = Ok fp
    /\ bar_offset_from_bar_and_percent bar fp = Ok k
    /\ Z.abs (100 * k - p * len (slots bar)) <= 50.
Proof.
  set (L := len (slots bar)). intros HL Hp.
  pose proof (IZR_range L 1 1099511627776 ltac:(change (2 ^ 40) with 1099511627776 in HL; lia)) as HLr.
  pose proof (IZR_range p 1 100 ltac:(lia)) as Hpr.
  assert (Hu := u53_val).
  destruct (of_int_Ok 100 ltac:(lia)) as [ppb [Hppb Hp100]].
  destruct (of_int_Ok L ltac:(change (2 ^ 40) with 1099511627776 in HL; change (2 ^ 53) with 9007199254740992; lia))
    as [fl [Hfl Hpl]].
  assert (Hx2 : (/ 1099511627776 <= 1 / IZR L <= 1)%R).
  { unfold Rdiv. rewrite Rmult_1_l.
    pose proof (inv_range (IZR L) 1 1099511627776 ltac:(lra) ltac:(lra)) as Hi.
    rewrite Rinv_1 in Hi. exact Hi. }
  destruct (div_Ok _ _ _ _ f_1_0_pfloat Hpl) as [bpc [v2 [Hbpc [Hp2 He2]]]].
  { apply range_100. lra. }
  assert (Ha2 : approx v2 (1 / IZR L) u53) by (apply approx_intro; lra).
  pose proof (approx_bounds _ _ _ Ha2) as B2. rewrite Hu in B2.
  assert (C2 : (/ 2199023255552 <= v2 /\ v2 <= 2)%R) by (split; nra).
  destruct (mul_pfloat _ _ _ _ Hp100 Hp2) as [v3 [Hp3 He3]].
  { destruct (range_100 (100 * v2)) as [[_ Hhi] [Hlo _]]; lra. }
  assert (Ha3 : approx v3 (100 * (1 / IZR L)) ((1 + 0) * (1 + u53) * (1 + u53) - 1)).
  { apply (approx_mul_round 100 100 0 v2 _ u53 v3);
      [apply approx_exact; lra | exact Ha2 | lra | rewrite Hu; lra | exact He3]. }
  pose proof (approx_bounds _ _ _ Ha3) as B3. rewrite Hu in B3.
  assert (C3 : (50 * (1 / IZR L) <= v3 /\ v3 <= 200)%R) by (split; nra).
  assert (C3' : (/ 1099511627776 <= v3)%R) by lra.
  destruct (of_int_Ok p ltac:(change (2 ^ 53) with 9007199254740992; lia)) as [fp [Hfp Hpp]].
  assert (Hq : (/ 200 <= IZR p / v3 <= 100 * 1099511627776)%R).
  { pose proof (inv_range v3 (/ 1099511627776) 200 ltac:(lra) ltac:(lra)) as Hi.
    rewrite Rinv_inv in Hi. unfold Rdiv.
    pose proof (prod_range (IZR p) (/ v3) 1 100 (/ 200) 1099511627776
                  ltac:(lra) ltac:(lra) ltac:(lra) ltac:(lra)).
    lra. }
  destruct (div_Ok _ _ _ _ Hpp Hp3) as [chars [vc [Hchars [Hpc Hec]]]].
  { apply range_100. lra. }
  assert (Hac : approx vc (IZR p / (100 * (1 / IZR L)))
                  ((1 + 2 * ((1 + 0) * (1 + u53) * (1 + u53) - 1)) * (1 + u53) - 1)).
  { apply (approx_div_round (IZR p) v3 _ _ vc); [lra | exact Ha3 | rewrite Hu; lra | exact Hec]. }
  set (x := (IZR p / (100 * (1 / IZR L)))%R) in *.
  assert (Hx : (100 * x = IZR p * IZR L)%R) by (unfold x; field; lra).
  assert (Hxr : (0 < x <= 1099511627776)%R) by nra.
  pose proof (approx_bounds _ _ _ Hac) as Bc. rewrite Hu in Bc.
  assert (Cc : (0 < vc /\ vc <= 2 * 1099511627776)%R) by (split; nra).
  destruct (add_pfloat _ _ _ _ Hpc f_0_5_pfloat) as [d [Hpd Hed]].
  { destruct (range_100 (vc + / 2)) as [[_ Hhi] [Hlo _]]; lra. }
  destruct Hpd as [m [e [Hd [_ ->]]]].
  destruct (to_int_floor m e) as [k [Hk Hfloor]].
  exists fp, k. split; [exact Hfp|]. split.
  { unfold bar_offset_from_bar_and_percent. fold L.
    rewrite Hppb. cbn [bind]. rewrite Hfl. cbn [bind]. rewrite Hbpc. cbn [bind].
    unfold PyFloat.mul. change PyFloat.prec with 53. change PyFloat.emax with 1024.
    rewrite Hchars. cbn [bind].
    unfold PyFloat.add. change PyFloat.prec with 53. change PyFloat.emax with 1024.
    rewrite Hd. exact Hk. }
  set (dv := (IZR (Z.pos m) * bpow e)%R) in *.
  destruct Hac as [_ Hac]. rewrite Hu in Hac, Hed.
  assert (Herr : (Rabs (dv - (x + / 2)) <= / 200)%R).
  { replace (dv - (x + / 2))%R with ((dv - (vc + / 2)) + (vc - x))%R by ring.
    eapply Rle_trans; [apply Rabs_triang|]. lra. }
  pose proof (Rle_abs (dv - (x + / 2))) as He1. pose proof (Rle_abs (- (dv - (x + / 2)))) as He2'.
  rewrite Rabs_Ropp in He2'.
  assert (H1 : 100 * k < p * L + 51).
  { apply lt_IZR. rewrite plus_IZR, !mult_IZR. lra. }
  assert (H2 : p * L + 49 < 100 * k + 100).
  { apply lt_IZR. rewrite !plus_IZR, !mult_IZR. lra. }
  lia.
Qed.

(** Zero percent is offset zero. *)
Lemma percent_zero (bar : Bar) :
  0 < len (slots bar) < 2 ^ 53 ->
  bar_offset_from_bar_and_percent bar (S754_zero false) = Ok 0.
Proof.
  intros HL.
  destruct (of_int_Ok 100 ltac:(lia)) as [ppb [Hppb Hp100]].
  destruct (of_int_Ok _ HL) as [fl [Hfl Hpl]].
  pose proof (IZR_range (len (slots bar)) 1 9007199254740992
                ltac:(change (2 ^ 53) with 9007199254740992 in HL; lia)) as HLr.
  assert (Hx2 : (/ 9007199254740992 <= 1 / IZR (len (slots bar)) <= 1)%R).
  { unfold Rdiv. rewrite Rmult_1_l.
    pose proof (inv_range (IZR (len (slots bar))) 1 9007199254740992 ltac:(lra) ltac:(lra)) as Hi.
    rewrite Rinv_1 in Hi. exact Hi. }
  destruct (div_Ok _ _ _ _ f_1_0_pfloat Hpl) as [bpc [v2 [Hbpc [Hp2 He2]]]].
  { apply range_100. lra. }
  assert (Hu := u53_val).
  assert (Ha2 : approx v2 (1 / IZR (len (slots bar))) u53) by (apply approx_intro; lra).
  pose proof (approx_bounds _ _ _ Ha2) as B2. rewrite Hu in B2.
  assert (C2 : (/ 18014398509481984 <= v2 /\ v2 <= 2)%R) by (split; nra).
  destruct (mul_pfloat _ _ _ _ Hp100 Hp2) as [v3 [Hp3 He3]].
  { destruct (range_100 (100 * v2)) as [[_ Hhi] [Hlo _]]; lra. }
  unfold bar_offset_from_bar_and_percent.
  rewrite Hppb. cbn [bind]. rewrite Hfl. cbn [bind]. rewrite Hbpc. cbn [bind].
  unfold PyFloat.mul. change PyFloat.prec with 53. change PyFloat.emax with 1024.
  destruct Hp3 as [m [e [-> _]]]. reflexivity.
Qed.

(** * Properties of the model *)

(** ** The error monad *)

Lemma bind_Ok {A B : Type} (r : result A) (k : A -> result B) (b : B) :
  bind r k = Ok b <-> exists a, r = Ok a /\ k a = Ok b.
Proof.
  destruct r as [a|e]; simpl; split.
  - intros H. exists a. auto.
  - intros [a' [Ha Hk]]. inversion Ha. subst. exact Hk.
  - discriminate.
  - intros [a' [Ha _]]. discriminate.
Qed.


Lemma mapM_Ok_nth {A B : Type} (f : A -> result B) (l : list A) (bs : list B) :
  mapM f l = Ok bs ->
  forall (n : nat) (a : A), nth_error l n = Some a ->
  exists b, nth_error bs n = Some b /\ f a = Ok b.
Proof.
  revert bs. induction l as [|a0 l IH]; simpl; intros bs H n a Hn.
  - destruct n; discriminate.
  - destruct (f a0) as [b0|e] eqn:Hf; simpl in H; [|discriminate].
    destruct (mapM f l) as [bs'|e]; simpl in H; [|discriminate].
    inversion H; subst. destruct n as [|n]; simpl in *.
    + inversion Hn; subst. exists b0. auto.
    + apply (IH bs' eq_refl n a Hn).
Qed.

Lemma mapM_total {A B : Type} (f : A -> result B) (l : list A) :
  (forall a, In a l -> exists b, f a = Ok b) -> exists bs, mapM f l = Ok bs.
Proof.
  induction l as [|a l IH]; simpl; intros H.
  - exists []. reflexivity.
  - destruct (H a (or_introl eq_refl)) as [b Hb]. rewrite Hb. simpl.
    destruct IH as [bs Hbs]. { intros a' Ha'. apply H. right. exact Ha'. }
    rewrite Hbs. simpl. exists (b :: bs). reflexivity.
Qed.

Lemma mapM_ext {A B : Type} (f g : A -> result B) (l : list A) :
  (forall a, In a l -> f a = g a) -> mapM f l = mapM g l.
Proof.
  induction l as [|a l IH]; simpl; intros H; [reflexivity|].
  rewrite (H a (or_introl eq_refl)). rewrite IH; [reflexivity|].
  intros a' Ha'. apply H. right. exact Ha'.
Qed.

(** ** [range] and [len] *)

Lemma range_length (n : Z) : List.length (range n) = Z.to_nat n.
Proof. unfold range. rewrite length_map, length_seq. reflexivity. Qed.

Lemma len_range (n : Z) : 0 <= n -> len (range n) = n.
Proof. intros H. unfold len. rewrite range_length. lia. Qed.



Lemma range_In (n i : Z) : In i (range n) <-> 0 <= i < n.
Proof.
  unfold range. rewrite in_map_iff. split.
  - intros [k [Hk Hin]]. apply in_seq in Hin. lia.
  - intros H. exists (Z.to_nat i). split; [lia|]. apply in_seq. lia.
Qed.

Lemma range_nonpos (n : Z) : n <= 0 -> range n = [].
Proof. intros H. unfold range. replace (Z.to_nat n) with 0%nat by lia. reflexivity. Qed.

(** ** [first_slot] *)



Lemma first_slot_sound (dt : datetime) (sl : list datetimerange) (i0 k : Z) :
  first_slot dt sl i0 = Some k ->
  exists (n : nat) (slot : datetimerange),
    k = i0 + Z.of_nat n /\ nth_error sl n = Some slot /\ contains slot dt = true /\
    forall j s, (j < n)%nat -> nth_error sl j = Some s -> contains s dt = false.
Proof.
  revert i0. induction sl as [|s sl IH]; simpl; intros i0 H; [discriminate|].
  destruct (contains s dt) eqn:Hc.
  - inversion H; subst. exists 0%nat, s.
    split; [lia|]. split; [reflexivity|]. split; [exact Hc|].
    intros j s' Hj. lia.
  - destruct (IH _ H) as [n [slot [Hk [Hn [Hcs Hfirst]]]]].
    exists (S n), slot.
    split; [lia|]. split; [exact Hn|]. split; [exact Hcs|].
    intros j s' Hj Hs'. destruct j as [|j]; simpl in Hs'.
    + inversion Hs'; subst. exact Hc.
    + apply (Hfirst j s'); [lia|exact Hs'].
Qed.

(** ** [gen_bar_chars] *)

Lemma color_of_total (phase : Phase) (text_char : option ascii) (has_passed : bool) :
  color_of phase text_char has_passed =
  Ok (if is_some text_char && has_passed then inverted_style phase else plain_style phase).
Proof. destruct phase, text_char, has_passed; reflexivity. Qed.

Lemma phase_of_code (bar : Bar) (so : option BarOffset) (i : Z) :
  phase_of bar so i =
  Ok (if i =? 0 then twilight
      else if offset_truthy so then phase_spec so (visible (cycle bar)) i
      else if visible (cycle bar) then day else night).
Proof.
  unfold phase_of, phase_spec. destruct (i =? 0); [reflexivity|].
  destruct so as [s|]; simpl.
  - destruct (s =? 0); simpl.
    + destruct (visible (cycle bar)); reflexivity.
    + destruct (i <? s); [reflexivity|]. destruct (i =? s); reflexivity.
  - destruct (visible (cycle bar)); reflexivity.
Qed.


Lemma time_label_of_empty (dt_offset : BarOffset) :
  time_label_of dt_offset (Some EmptyString) = time_label_of dt_offset None.
Proof. reflexivity. Qed.

Lemma gen_slot_no_label (bar : Bar) (dt_offset : BarOffset) (so : option BarOffset) (i : Z) (toks : list token) :
  gen_slot bar dt_offset so None i = Ok toks -> forallb (fun t => negb (is_label_token t)) toks = true.
Proof.
  unfold gen_slot. rewrite phase_of_code. cbn [bind]. rewrite color_of_total. cbn [bind].
  cbn [text_char_of is_some andb app]. intros H. inversion H; subst; clear H.
  cbn [forallb]. rewrite !andb_true_r.
  apply andb_true_intro. split.
  - destruct (i =? 0); [reflexivity|].
    destruct (offset_truthy so).
    + unfold phase_spec. destruct (i =? 0); [reflexivity|].
      destruct so as [s|]; [|destruct (visible (cycle bar)); reflexivity].
      destruct (i <? s); [reflexivity|]. destruct (i =? s); reflexivity.
    + destruct (visible (cycle bar)); reflexivity.
  - destruct (dt_offset >=? i); reflexivity.
Qed.

Lemma forallb_concat {A : Type} (p : A -> bool) (ll : list (list A)) :
  (forall l, In l ll -> forallb p l = true) -> forallb p (List.concat ll) = true.
Proof.
  induction ll as [|l ll IH]; simpl; intros H; [reflexivity|].
  rewrite forallb_app. rewrite (H l (or_introl eq_refl)). simpl.
  apply IH. intros l' Hl'. apply H. right. exact Hl'.
Qed.

Lemma mapM_Ok_In {A B : Type} (f : A -> result B) (l : list A) (bs : list B) :
  mapM f l = Ok bs -> forall b, In b bs -> exists a, In a l /\ f a = Ok b.
Proof.
  revert bs. induction l as [|a0 l IH]; simpl; intros bs H b Hb.
  - inversion H; subst. destruct Hb.
  - destruct (f a0) as [b0|e] eqn:Hf; simpl in H; [|discriminate].
    destruct (mapM f l) as [bs'|e]; simpl in H; [|discriminate].
    inversion H; subst. destruct Hb as [<-|Hb].
    + exists a0. auto.
    + destruct (IH bs' eq_refl b Hb) as [a [Ha Hfa]]. exists a. auto.
Qed.





Lemma gen_bar_chars_no_label (bar : Bar) (dt_offset : BarOffset) (toks : list token) :
  gen_bar_chars bar dt_offset None = Ok toks ->
  forallb (fun t => negb (is_label_token t)) toks = true.
Proof.
  unfold gen_bar_chars. intros H.
  apply bind_Ok in H. destruct H as [so [_ H]].
  apply bind_Ok in H. destruct H as [tss [Hm H]].
  inversion H; subst; clear H.
  apply forallb_concat. intros l Hl.
  destruct (mapM_Ok_In _ _ _ Hm l Hl) as [i [_ Hi]].
  cbn [time_label_of str_truthy] in Hi.
  apply (gen_slot_no_label _ _ _ _ _ Hi).
Qed.

(** ** [scale_from_bar] *)

Lemma range_step_In (step m : Z) :
  0 < step ->
  (In m (range_step (100 + 1) step) <-> 0 <= m <= 100 /\ m mod step = 0).
Proof.
  intros Hs. unfold range_step. rewrite in_map_iff.
  replace (100 + 1 + step - 1) with (100 + 1 * step) by lia.
  rewrite Z.div_add by lia.
  pose proof (Z.div_mod 100 step ltac:(lia)) as Hdm.
  pose proof (Z.mod_pos_bound 100 step Hs) as Hr.
  split.
  - intros [k [<- Hk]]. apply range_In in Hk.
    split; [nia|]. apply Z.mod_mul. lia.
  - intros [Hm Hmod].
    exists (m / step).
    pose proof (Z.div_mod m step ltac:(lia)) as Hdm'.
    rewrite Hmod in Hdm'.
    split; [lia|]. apply range_In.
    assert (0 <= m / step) by (apply Z.div_pos; lia).
    split; [assumption|].
    assert (m / step <= 100 / step) by (apply Z.div_le_mono; lia).
    lia.
Qed.

Lemma scale_loop_Some (bar : Bar) (steps : list Z) (s : string) :
  scale_loop bar steps = Ok (Some s) <->
  exists pre step post,
    steps = pre ++ step :: post
    /\ candidate_scale bar step = Ok s /\ legible s step = true
    /\ forall st, In st pre -> exists c, candidate_scale bar st = Ok c /\ legible c st = false.
Proof.
  induction steps as [|st steps IH]; cbn [scale_loop].
  - split; [discriminate|]. intros [pre [step [post [H _]]]]. destruct pre; discriminate.
  - destruct (candidate_scale bar st) as [c|e] eqn:Hc; cbn [bind].
    + change (len (split c) =? len (range_step (100 + 1) st)) with (legible c st).
      destruct (legible c st) eqn:Hl.
      * split.
        -- intros H. inversion H; subst. exists [], st, steps.
           split; [reflexivity|]. split; [exact Hc|]. split; [exact Hl|].
           intros st' [].
        -- intros [pre [step [post [Heq [Hcs [Hls Hpre]]]]]].
           destruct pre as [|p pre]; simpl in Heq; inversion Heq; subst.
           ++ congruence.
           ++ destruct (Hpre p (or_introl eq_refl)) as [c' [Hc' Hl']]. congruence.
      * rewrite IH. split.
        -- intros [pre [step [post [Heq [Hcs [Hls Hpre]]]]]].
           exists (st :: pre), step, post. subst.
           split; [reflexivity|]. split; [exact Hcs|]. split; [exact Hls|].
           intros st' [<-|Hin]; [exists c; auto|apply Hpre; exact Hin].
        -- intros [pre [step [post [Heq [Hcs [Hls Hpre]]]]]].
           destruct pre as [|p pre]; simpl in Heq; inversion Heq; subst.
           ++ congruence.
           ++ exists pre, step, post.
              split; [reflexivity|]. split; [exact Hcs|]. split; [exact Hls|].
              intros st' Hin. apply Hpre. right. exact Hin.
    + split; [discriminate|].
      intros [pre [step [post [Heq [Hcs [Hls Hpre]]]]]].
      destruct pre as [|p pre]; simpl in Heq; inversion Heq; subst.
      * congruence.
      * destruct (Hpre p (or_introl eq_refl)) as [c' [Hc' _]]. congruence.
Qed.



Lemma length_string_of_list_ascii (l : list ascii) :
  String.length (string_of_list_ascii l) = List.length l.
Proof. induction l as [|a l IH]; simpl; [reflexivity|]. f_equal. exact IH. Qed.

Lemma zip_longest_length (lists : list (list (option ascii))) :
  List.length (zip_longest lists) = fold_right Nat.max 0%nat (map (@List.length _) lists).
Proof. unfold zip_longest. rewrite length_map, length_seq. reflexivity. Qed.

Lemma fold_max_le (l : list nat) (n : nat) :
  (forall x, In x l -> (x <= n)%nat) -> (fold_right Nat.max 0%nat l <= n)%nat.
Proof.
  induction l as [|a l IH]; simpl; intros H; [lia|].
  pose proof (H a (or_introl eq_refl)).
  pose proof (IH (fun x Hx => H x (or_intror Hx))). lia.
Qed.

Lemma fold_max_ge (l : list nat) (x : nat) :
  In x l -> (x <= fold_right Nat.max 0%nat l)%nat.
Proof.
  induction l as [|a l IH]; simpl; intros H; [destruct H|].
  destruct H as [->|H]; [lia|]. pose proof (IH H). lia.
Qed.

Lemma candidate_scale_length (bar : Bar) (step : Z) (s : string) :
  candidate_scale bar step = Ok s ->
  exists lists,
    mapM (marker_list bar) (range_step (100 + 1) step) = Ok lists
    /\ String.length s = fold_right Nat.max 0%nat (map (@List.length _) lists).
Proof.
  unfold candidate_scale. intros H. apply bind_Ok in H. destruct H as [lists [Hl H]].
  exists lists. split; [exact Hl|]. inversion H; subst; clear H.
  rewrite length_string_of_list_ascii, !length_map. apply zip_longest_length.
Qed.

Lemma marker_list_length (bar : Bar) (m : Z) (l : list (option ascii)) :
  marker_list bar m = Ok l ->
  exists fm k,
    PyFloat.of_int m = Ok fm /\ bar_offset_from_bar_and_percent bar fm = Ok k
    /\ List.length l = (Z.to_nat k + String.length (str m))%nat.
Proof.
  unfold marker_list. intros H.
  apply bind_Ok in H. destruct H as [fm [Hfm H]].
  apply bind_Ok in H. destruct H as [k [Hk H]].
  exists fm, k. split; [exact Hfm|]. split; [exact Hk|].
  inversion H; subst; clear H.
  rewrite length_app, repeat_length, length_map.
  f_equal. clear. induction (str m) as [|a s IH]; simpl; [reflexivity|]. f_equal. exact IH.
Qed.

Lemma str_marker_length (m : Z) :
  0 <= m <= 100 -> (1 <= String.length (str m) <= 3)%nat.
Proof.
  intros Hm.
  assert (H : forallb (fun m => ((1 <=? String.length (str m)) && (String.length (str m) <=? 3))%nat)
                (range 101) = true) by (vm_compute; reflexivity).
  rewrite forallb_forall in H. specialize (H m (proj2 (range_In 101 m) ltac:(lia))).
  apply andb_prop in H. destruct H as [H1 H2].
  apply Nat.leb_le in H1. apply Nat.leb_le in H2. lia.
Qed.

(** ** [bar_from_cycle_and_length] as a whole *)

Lemma mapM_map {A B : Type} (f : A -> result B) (g : A -> B) (l : list A) :
  (forall a, In a l -> f a = Ok (g a)) -> mapM f l = Ok (map g l).
Proof.
  induction l as [|a l IH]; simpl; intros H; [reflexivity|].
  rewrite (H a (or_introl eq_refl)). cbn [bind].
  rewrite IH by (intros a' Ha'; apply H; right; exact Ha'). reflexivity.
Qed.


Lemma total_seconds_error (td : timedelta) (e : exn) :
  total_seconds td = Error e -> e = OverflowError.
Proof.
  unfold total_seconds, PyFloat.int_true_div.
  destruct td as [|p|p]; [discriminate| |].
  - destruct (SFdiv_core_binary _ _ _ _ _ _) as [[mz ez] lz].
    destruct (binary_round_aux _ _ _ _ _ _); intros H; inversion H; reflexivity.
  - destruct (SFdiv_core_binary _ _ _ _ _ _) as [[mz ez] lz].
    destruct (binary_round_aux _ _ _ _ _ _); intros H; inversion H; reflexivity.
Qed.

Lemma build_zero_length (c : Cycle) :
  bar_from_cycle_and_length c 0 = Error ZeroDivisionError
  \/ bar_from_cycle_and_length c 0 = Error OverflowError.
Proof.
  unfold bar_from_cycle_and_length.
  destruct (total_seconds (end_ c - start c)) as [x|e] eqn:Ht.
  - left. reflexivity.
  - right. rewrite (total_seconds_error _ _ Ht). reflexivity.
Qed.


(** ** Offsets of the scale's markers *)

Lemma marker_offset (bar : Bar) (m : Z) :
  1 <= len (slots bar) < 2 ^ 40 -> 0 <= m <= 100 ->
  exists fm k,
    PyFloat.of_int m = Ok fm
    /\ bar_offset_from_bar_and_percent bar fm = Ok k
    /\ Z.abs (100 * k - m * len (slots bar)) <= 50.
Proof.
  intros HL Hm. destruct (Z.eq_dec m 0) as [->|Hm0].
  - exists (S754_zero false), 0. split; [reflexivity|]. split; [|lia].
    apply percent_zero. change (2 ^ 40) with 1099511627776 in HL.
    change (2 ^ 53) with 9007199254740992. lia.
  - apply percent_spec; lia.
Qed.

Lemma marker_list_total (bar : Bar) (m : Z) :
  1 <= len (slots bar) < 2 ^ 40 -> 0 <= m <= 100 ->
  exists l, marker_list bar m = Ok l
    /\ Z.of_nat (List.length l) <= len (slots bar) + 3.
Proof.
  intros HL Hm.
  destruct (marker_offset bar m HL Hm) as [fm [k [Hfm [Hk Hb]]]].
  unfold marker_list. rewrite Hfm. cbn [bind]. rewrite Hk. cbn [bind].
  eexists. split; [reflexivity|].
  rewrite length_app, repeat_length, length_map.
  pose proof (str_marker_length m Hm) as Hs.
  assert (Hlen : List.length (list_ascii_of_string (str m)) = String.length (str m)).
  { clear. induction (str m) as [|a s IH]; simpl; [reflexivity|]. f_equal. exact IH. }
  rewrite Hlen. nia.
Qed.

Lemma candidate_scale_total (bar : Bar) (step : Z) :
  1 <= len (slots bar) < 2 ^ 40 -> 0 < step ->
  exists c, candidate_scale bar step = Ok c
    /\ strlen c <= len (slots bar) + 3.
Proof.
  intros HL Hs.
  destruct (mapM_total (marker_list bar) (range_step (100 + 1) step)) as [lists Hl].
  { intros m Hm. apply (range_step_In step m Hs) in Hm.
    destruct (marker_list_total bar m HL (proj1 Hm)) as [l [Hl _]]. exists l. exact Hl. }
  unfold candidate_scale. rewrite Hl. cbn [bind]. eexists. split; [reflexivity|].
  unfold strlen. rewrite length_string_of_list_ascii, !length_map, zip_longest_length.
  assert (H : (fold_right Nat.max 0 (map (@List.length _) lists)
               <= Z.to_nat (len (slots bar) + 3))%nat); [|lia].
  apply fold_max_le. intros x Hx. apply in_map_iff in Hx. destruct Hx as [l [<- Hin]].
  destruct (mapM_Ok_In _ _ _ Hl l Hin) as [m [Hm Hml]].
  apply (range_step_In step m Hs) in Hm.
  destruct (marker_list_total bar m HL (proj1 Hm)) as [l' [Hl' Hlen]].
  assert (l' = l) by congruence. subst. lia.
Qed.

(** * The claims of the specification *)



(** C3: what the code does for the phase of slot [i].  It follows the
    specification whenever the sunset offset is not [0]; when the sunset
    falls in slot [0], the test [elif sunset_offset] fails as it does for a
    cycle without a sunset, and every later slot takes its phase from
    [cycle.visible] instead of being [night]. *)
Theorem C3_phase_assignment (bar : Bar) (i : Z) :
  (forall so, so <> Some 0 ->
     phase_of bar so i = Ok (phase_spec so (visible (cycle bar)) i))
  /\ phase_of bar (Some 0) i =
       Ok (if i =? 0 then twilight else if visible (cycle bar) then day else night).
Proof.
  split.
  - intros so Hso. rewrite phase_of_code. unfold phase_spec.
    destruct (i =? 0); [reflexivity|].
    destruct so as [s|]; simpl; [|reflexivity].
    destruct (s =? 0) eqn:Hs; [|reflexivity].
    apply Z.eqb_eq in Hs. subst. congruence.
  - rewrite phase_of_code. reflexivity.
Qed.

(** C3, the failing input: a ten-slot bar over [c_early], whose sunset falls
    in slot [0].  The code colours slots 1 to 9 as [day] (orange), where the
    specification asks for [night]. *)
Lemma C3_sunset_in_first_slot :
  exists b,
    bar_from_cycle_and_length c_early 10 = Ok b /\
    bar_offset_from_bar_and_datetime b (at_time 7 0) = Ok 0 /\
    phase_of b (Some 0) 3 = Ok day /\
    phase_spec (Some 0) (visible (cycle b)) 3 = night /\
    gen_bar_chars b 0 None =
      Ok [TAttr purple; TFull; TAttr orange; TEmpty; TAttr orange; TEmpty;
          TAttr orange; TEmpty; TAttr orange; TEmpty; TAttr orange; TEmpty;
          TAttr orange; TEmpty; TAttr orange; TEmpty; TAttr orange; TEmpty;
          TAttr orange; TEmpty].
Proof.
  eexists. split; [vm_compute; reflexivity|].
  repeat split; vm_compute; reflexivity.
Qed.




(** C10: the empty string as label gives the output of no label at all, and
    that output holds no label character and no style reset. *)
Theorem C10_empty_label_is_no_label (k : Constants) (bar : Bar) (dt_offset : BarOffset) :
  render k bar dt_offset (Some EmptyString) = render k bar dt_offset None
  /\ gen_bar_chars bar dt_offset (Some EmptyString) = gen_bar_chars bar dt_offset None
  /\ (forall toks, gen_bar_chars bar dt_offset None = Ok toks ->
        forallb (fun t => negb (is_label_token t)) toks = true).
Proof.
  split; [reflexivity|]. split; [reflexivity|].
  apply gen_bar_chars_no_label.
Qed.













(** C9 (amended): on a bar of [L] slots, fewer than [2^40], a scale that is
    returned has at most [L + 3] characters: the marker 100 starts at
    offset [L] and is three characters long. *)
Theorem C9_scale_length (bar : Bar) (s : string) :
  1 <= len (slots bar) < 2 ^ 40 ->
  scale_from_bar bar = Ok (Some s) ->
  strlen s <= len (slots bar) + 3.
Proof.
  intros HL Hs. apply scale_loop_Some in Hs.
  destruct Hs as [pre [step [post [Heq [Hc [_ _]]]]]].
  assert (Hin : In step [10; 20; 25; 33; 50]) by (rewrite Heq; apply in_elt).
  assert (Hpos : 0 < step) by (simpl in Hin; lia).
  destruct (candidate_scale_total bar step HL Hpos) as [c [Hc' Hlen]].
  assert (c = s) by congruence. subst. exact Hlen.
Qed.

Lemma C9_scale_length_witness :
  strlen "0  50 100"%string <= len (slots (bar_of c24 6)) + 3.
Proof.
  apply (C9_scale_length (bar_of c24 6) "0  50 100"%string); vm_compute; [split; congruence|reflexivity].
Defined.

(** C9, the counterexample: the scale of a bar of six slots has nine
    characters. *)
Lemma C9_scale_longer_than_bar :
  len (slots (bar_of c24 6)) = 6
  /\ scale_from_bar (bar_of c24 6) = Ok (Some "0  50 100"%string)
  /\ strlen "0  50 100"%string = 9.
Proof. split; [|split]; vm_compute; reflexivity. Qed.

(** * Further properties of the code *)

(** ** [bar_offset_from_bar_and_datetime] *)

(** X1: an offset that is returned lies between [0] and the bar's length,
    and it is the bar's length only for the instant [cycle.end]. *)
Theorem offset_in_range (bar : Bar) (dt : datetime) (k : BarOffset) :
  bar_offset_from_bar_and_datetime bar dt = Ok k ->
  0 <= k <= len (slots bar) /\ (k = len (slots bar) -> dt = end_ (cycle bar)).
Proof.
  unfold bar_offset_from_bar_and_datetime.
  destruct (dt =? end_ (cycle bar)) eqn:He.
  - intros H. inversion H; subst. apply Z.eqb_eq in He. unfold len. split; [lia|auto].
  - destruct (first_slot dt (slots bar) 0) as [i|] eqn:Hf; [|discriminate].
    intros H. inversion H; subst.
    destruct (first_slot_sound _ _ _ _ Hf) as [n [slot [Hk [Hn _]]]].
    assert (n < List.length (slots bar))%nat by (apply nth_error_Some; congruence).
    unfold len. split; lia.
Qed.

Lemma offset_in_range_witness :
  0 <= 1 <= len (slots bar_hand) /\ (1 = len (slots bar_hand) -> 15 = end_ (cycle bar_hand)).
Proof. apply (offset_in_range bar_hand 15 1). reflexivity. Defined.








(** ** [gen_bar_chars] and [render] *)

Lemma gen_slot_eq (bar : Bar) (dt_offset : BarOffset) (so : option BarOffset)
    (tl : option (string * BarOffset)) (i : Z) :
  gen_slot bar dt_offset so tl i = Ok (slot_tokens bar dt_offset so tl i).
Proof.
  unfold gen_slot, slot_tokens. rewrite phase_of_code. cbn [bind].
  rewrite color_of_total. cbn [bind]. fold (phase_code bar so i).
  destruct (text_char_of tl i); reflexivity.
Qed.

Lemma gen_bar_chars_eq (bar : Bar) (dt_offset : BarOffset) (lbl : option string) :
  gen_bar_chars bar dt_offset lbl =
  so <- sunset_offset_of bar ;;
  Ok (flat_map (slot_tokens bar dt_offset so (time_label_of dt_offset lbl))
        (range (len (slots bar)))).
Proof.
  unfold gen_bar_chars. fold (sunset_offset_of bar).
  destruct (sunset_offset_of bar) as [so|e]; cbn [bind]; [|reflexivity].
  rewrite (mapM_map _ (slot_tokens bar dt_offset so (time_label_of dt_offset lbl)))
    by (intros; apply gen_slot_eq).
  cbn [bind]. rewrite flat_map_concat_map. reflexivity.
Qed.














Lemma style_not_normal (p : Phase) (b : bool) (rest : list token) :
  resets_ok (TAttr (if b then inverted_style p else plain_style p) :: rest) = resets_ok rest.
Proof. destruct p, b; reflexivity. Qed.

Lemma slot_tokens_resets (bar : Bar) (dt_offset : BarOffset) (so : option BarOffset)
    (tl : option (string * BarOffset)) (i : Z) (rest : list token) :
  resets_ok (slot_tokens bar dt_offset so tl i ++ rest) = resets_ok rest.
Proof.
  unfold slot_tokens. cbn [app]. rewrite style_not_normal.
  destruct (text_char_of tl i); cbn [app resets_ok]; [reflexivity|].
  destruct (dt_offset >=? i); reflexivity.
Qed.

(** X8: in what the generator yields, every label character is followed at
    once by the reset to [normal], and [normal] is yielded nowhere else. *)
Theorem label_chars_are_reset (bar : Bar) (dt_offset : BarOffset) (lbl : option string)
    (toks : list token) :
  gen_bar_chars bar dt_offset lbl = Ok toks -> resets_ok toks = true.
Proof.
  rewrite gen_bar_chars_eq. intros H. apply bind_Ok in H. destruct H as [so [_ H]].
  inversion H; subst; clear H.
  induction (range (len (slots bar))) as [|i l IH]; [reflexivity|].
  cbn [flat_map]. rewrite slot_tokens_resets. exact IH.
Qed.

Lemma label_chars_are_reset_witness :
  resets_ok [TAttr black_on_purple; TChar "a"%char; TAttr normal;
             TAttr black_on_orange; TChar "b"%char; TAttr normal;
             TAttr orange; TEmpty] = true.
Proof. apply (label_chars_are_reset bar_hand 1 (Some "ab"%string)). reflexivity. Defined.

(** ** [scale_from_bar] *)

Lemma fold_or_acc (args : list (option ascii)) (acc : option ascii) :
  fold_left or_2_arity args acc =
  match acc with Some _ => acc | None => first_some args end.
Proof.
  revert acc. induction args as [|a args IH]; intros acc; cbn [fold_left first_some].
  - destruct acc; reflexivity.
  - rewrite IH. destruct acc as [c|]; cbn [or_2_arity]; [reflexivity|].
    destruct a; reflexivity.
Qed.

Lemma or_N_arity_first (args : list (option ascii)) :
  or_N_arity args = first_some args.
Proof. unfold or_N_arity. apply fold_or_acc. Qed.

(** X9: the N-ary [or] built by reducing the two-argument [or] from [None]
    returns its leftmost argument that is not [None], and [None] when there
    is none. *)
Theorem or_N_arity_leftmost (args : list (option ascii)) :
  or_N_arity args = first_some args
  /\ (or_N_arity args = None <-> forall a, In a args -> a = None).
Proof.
  rewrite or_N_arity_first. split; [reflexivity|].
  induction args as [|a args IH]; cbn [first_some].
  - split; [intros _ a []|reflexivity].
  - destruct a as [c|].
    + split; [discriminate|]. intros H. apply (H (Some c)). left. reflexivity.
    + rewrite IH. split.
      * intros H a [<-|Hin]; [reflexivity|apply H; exact Hin].
      * intros H a Hin. apply H. right. exact Hin.
Qed.

Lemma range_step_head (step : Z) :
  0 < step -> exists rest, range_step (100 + 1) step = 0 :: rest.
Proof.
  intros Hs. unfold range_step, range.
  replace (100 + 1 + step - 1) with (100 + 1 * step) by lia.
  rewrite Z.div_add by lia.
  assert (0 <= 100 / step) by (apply Z.div_pos; lia).
  replace (Z.to_nat (100 / step + 1)) with (S (Z.to_nat (100 / step))) by lia.
  cbn [seq map]. eexists. reflexivity.
Qed.

Lemma candidate_starts_with_zero (bar : Bar) (step : Z) (s : string) :
  0 < len (slots bar) < 2 ^ 53 -> 0 < step ->
  candidate_scale bar step = Ok s ->
  exists rest, s = String "0"%char rest.
Proof.
  intros HL Hs H. unfold candidate_scale in H.
  destruct (range_step_head step Hs) as [ms Hms]. rewrite Hms in H.
  cbn [mapM] in H.
  assert (H0 : marker_list bar 0 = Ok [Some "0"%char]).
  { unfold marker_list. change (PyFloat.of_int 0) with (Ok (S754_zero false)). cbn [bind].
    rewrite (percent_zero bar HL). reflexivity. }
  rewrite H0 in H. cbn [bind] in H.
  destruct (mapM (marker_list bar) ms) as [ls|e]; cbn [bind] in H; [|discriminate].
  inversion H; subst; clear H.
  unfold zip_longest. cbn [map fold_right List.length].
  destruct (Nat.max 1 (fold_right Nat.max 0%nat (map (@List.length _) ls))) as [|n] eqn:Hn; [lia|].
  cbn [seq map nth]. rewrite or_N_arity_first.
  cbn [first_some string_of_list_ascii]. eexists. reflexivity.
Qed.

(** X10: a scale that is returned starts with the marker [0] in its first
    column. *)
Theorem scale_starts_with_zero (bar : Bar) (s : string) :
  0 < len (slots bar) < 2 ^ 53 ->
  scale_from_bar bar = Ok (Some s) ->
  exists rest, s = String "0"%char rest.
Proof.
  intros HL Hs. apply scale_loop_Some in Hs.
  destruct Hs as [pre [step [post [Heq [Hc _]]]]].
  assert (Hin : In step [10; 20; 25; 33; 50]) by (rewrite Heq; apply in_elt).
  apply (candidate_starts_with_zero bar step s HL); [simpl in Hin; lia|exact Hc].
Qed.

Lemma scale_starts_with_zero_witness :
  exists rest, "0  50 100"%string = String "0"%char rest.
Proof.
  apply (scale_starts_with_zero (bar_of c24 6)); vm_compute; [split; congruence|reflexivity].
Defined.

(** X11: the offsets of the integer percentages from 0 to 100 stay on the
    bar and do not decrease with the percentage; 0 percent is offset 0 and
    100 percent is the bar's length. *)
Theorem marker_offsets_monotone (bar : Bar) (p q : Z) :
  1 <= len (slots bar) < 2 ^ 40 -> 0 <= p <= q -> q <= 100 ->
  exists fp fq kp kq,
    PyFloat.of_int p = Ok fp /\ PyFloat.of_int q = Ok fq
    /\ bar_offset_from_bar_and_percent bar fp = Ok kp
    /\ bar_offset_from_bar_and_percent bar fq = Ok kq
    /\ 0 <= kp <= kq /\ kq <= len (slots bar)
    /\ (p = 0 -> kp = 0) /\ (q = 100 -> kq = len (slots bar)).
Proof.
  intros HL Hp Hq.
  destruct (marker_offset bar p HL ltac:(lia)) as [fp [kp [Hfp [Hkp Hbp]]]].
  destruct (marker_offset bar q HL ltac:(lia)) as [fq [kq [Hfq [Hkq Hbq]]]].
  exists fp, fq, kp, kq.
  split; [exact Hfp|]. split; [exact Hfq|]. split; [exact Hkp|]. split; [exact Hkq|].
  set (L := len (slots bar)) in *.
  assert (Hmono : kp <= kq).
  { destruct (Z.eq_dec p q) as [->|Hne].
    - assert (fp = fq) by congruence. subst. assert (kp = kq) by congruence. lia.
    - assert (L <= (q - p) * L) by nia. nia. }
  split; [split; [nia|exact Hmono]|].
  split; [nia|]. split; intros ->; nia.
Qed.

Lemma marker_offsets_monotone_witness :
  exists fp fq kp kq,
    PyFloat.of_int 33 = Ok fp /\ PyFloat.of_int 66 = Ok fq
    /\ bar_offset_from_bar_and_percent (bar_of c24 10) fp = Ok kp
    /\ bar_offset_from_bar_and_percent (bar_of c24 10) fq = Ok kq
    /\ 0 <= kp <= kq /\ kq <= len (slots (bar_of c24 10))
    /\ (33 = 0 -> kp = 0) /\ (66 = 100 -> kq = len (slots (bar_of c24 10))).
Proof.
  apply (marker_offsets_monotone (bar_of c24 10) 33 66); vm_compute; try split; congruence.
Defined.

(** ** Instants outside the cycle *)





(** ** [draw_label] *)

(** X13: a label is never drawn on the row of the bar, nor on the row of the
    scale when there is one; it is drawn above the bar when [above] is set
    and below it otherwise. *)
Theorem draw_label_rows (bar_begin_x bar_y offset : Z) (above scale : bool)
    (text marker : option string) (o : Output) (y : Z) :
  In o (printed (draw_label bar_begin_x bar_y offset above scale text marker)) ->
  row_of o = Some y ->
  y <> bar_y
  /\ (scale = true -> y <> bar_y + 1)
  /\ (above = true -> y < bar_y)
  /\ (above = false -> bar_y < y).
Proof.
  unfold draw_label, and_then, out, fail.
  destruct above, scale, (str_truthy marker), (str_truthy text);
    destruct marker as [mk|], text as [txt|];
    try destruct (strlen mk =? 1);
    cbn; intros Hin Hrow;
    repeat (destruct Hin as [<-|Hin]; [cbn in Hrow; inversion Hrow; subst; clear Hrow;
                                       repeat split; try discriminate; lia|]);
    try destruct Hin.
Qed.

Lemma draw_label_rows_witness :
  12 + 2 <> 12
  /\ (true = true -> 12 + 2 <> 12 + 1)
  /\ (false = true -> 12 + 2 < 12)
  /\ (false = false -> 12 < 12 + 2).
Proof.
  apply (draw_label_rows 5 12 3 false true (Some "set"%string) (Some "|"%string)
           (At (5 + 3) (12 + 2) "|"%string) (12 + 2)).
  - left. reflexivity.
  - reflexivity.
Defined.

(** X14: a label with a one-character marker and a text: the marker goes to
    column [bar_begin_x + offset], the text is centred on it (the marker's
    column is one of the text's columns) one row farther from the bar, and
    nothing is raised. *)
Theorem draw_label_centred (bar_begin_x bar_y offset : Z) (above scale : bool)
    (txt mk : string) :
  strlen mk = 1 -> txt <> EmptyString ->
  exists xt ym yt,
    draw_label bar_begin_x bar_y offset above scale (Some txt) (Some mk)
      = out [At (bar_begin_x + offset) ym mk; At xt yt txt]
    /\ xt <= bar_begin_x + offset < xt + strlen txt
    /\ Z.abs (yt - bar_y) = Z.abs (ym - bar_y) + 1.
Proof.
  intros Hmk Htxt.
  assert (Hm : str_truthy (Some mk) = true).
  { unfold str_truthy. destruct mk; [discriminate|reflexivity]. }
  assert (Ht : str_truthy (Some txt) = true).
  { unfold str_truthy. destruct txt; [congruence|reflexivity]. }
  assert (Hlen : 1 <= strlen txt).
  { unfold strlen. destruct txt; [congruence|]. cbn [String.length]. lia. }
  unfold draw_label. rewrite Hm, Ht. apply Z.eqb_eq in Hmk. rewrite Hmk.
  pose proof (Z.div_mod (strlen txt) 2 ltac:(lia)) as Hdm.
  pose proof (Z.mod_pos_bound (strlen txt) 2 ltac:(lia)) as Hr.
  destruct above, scale; cbn; eexists _, _, _; (split; [reflexivity|]); split; lia.
Qed.

Lemma draw_label_centred_witness :
  exists xt ym yt,
    draw_label 5 12 30 true true (Some "18:00"%string) (Some "|"%string)
      = out [At (5 + 30) ym "|"%string; At xt yt "18:00"%string]
    /\ xt <= 5 + 30 < xt + strlen "18:00"%string
    /\ Z.abs (yt - 12) = Z.abs (ym - 12) + 1.
Proof.
  apply (draw_label_centred 5 12 30 true true "18:00"%string "|"%string).
  - reflexivity.
  - discriminate.
Defined.

(** X15: [draw_label] raises exactly when the marker is longer than one
    character; what it raises is the failed assertion, and nothing has been
    drawn by then. *)
Theorem draw_label_assertion (bar_begin_x bar_y offset : Z) (above scale : bool)
    (text marker : option string) (e : clock_exn) :
  raised (draw_label bar_begin_x bar_y offset above scale text marker) = Some e <->
  e = AssertionError
  /\ printed (draw_label bar_begin_x bar_y offset above scale text marker) = []
  /\ exists mk, marker = Some mk /\ 2 <= strlen mk.
Proof.
  unfold draw_label.
  destruct (if negb above
            then if scale then (-1 * -1 + 1, (if str_truthy marker then -2 else -1) * -1 + 1)
                 else (-1 * -1, (if str_truthy marker then -2 else -1) * -1)
            else (-1, if str_truthy marker then -2 else -1)) as [my ty].
  set (B := if str_truthy text
            then match text with
                 | Some txt => out [At (bar_begin_x + offset - strlen txt / 2) (bar_y + ty) txt]
                 | None => out []
                 end
            else out []).
  assert (HB : raised B = None).
  { unfold B. destruct (str_truthy text); [destruct text|]; reflexivity. }
  destruct marker as [mk|].
  - assert (Hl : strlen mk = 0 <-> str_truthy (Some mk) = false).
    { unfold strlen, str_truthy. destruct mk; cbn; split; intros; try reflexivity; try discriminate; lia. }
    destruct (str_truthy (Some mk)) eqn:Htm.
    + assert (strlen mk <> 0) by (intros H0; apply Hl in H0; discriminate).
      assert (0 <= strlen mk) by (unfold strlen; lia).
      destruct (strlen mk =? 1) eqn:H1.
      * apply Z.eqb_eq in H1. unfold and_then. cbn [out raised printed]. rewrite HB.
        split; [discriminate|]. intros [_ [_ [mk' [Hmk Hlen]]]]. inversion Hmk; subst. lia.
      * apply Z.eqb_neq in H1. unfold and_then, fail. cbn [raised printed]. split.
        -- intros H2. inversion H2. split; [reflexivity|]. split; [reflexivity|].
           exists mk. split; [reflexivity|lia].
        -- intros [-> _]. reflexivity.
    + unfold and_then. cbn [out raised printed]. rewrite HB.
      split; [discriminate|]. intros [_ [_ [mk' [Hmk Hlen]]]]. inversion Hmk; subst.
      assert (strlen mk' = 0) by (apply Hl; reflexivity). lia.
  - cbn [str_truthy]. unfold and_then. cbn [out raised printed]. rewrite HB.
    split; [discriminate|]. intros [_ [_ [mk' [Hmk _]]]]. discriminate.
Qed.

(** ** [draw_frame] *)

Lemma and_then_out (a : list Output) (r : Run) :
  and_then (out a) r = {| printed := a ++ printed r; raised := raised r |}.
Proof. reflexivity. Qed.


(** X16: on a terminal just two columns wider than the margins there is no
    room for a slot: [draw_frame] clears the screen, draws the two caps and
    then ends with the ZeroDivisionError of the builder (the OverflowError
    for a cycle too long for a float). *)
Theorem draw_frame_without_room (k : Constants) (sc : Screen) (c : Cycle) (now : datetime) :
  width sc = 2 * MARGIN_LR sc + 2 ->
  printed (draw_frame k sc c now)
    = [Print (clear sc);
       At (MARGIN_LR sc) (height sc / 2) (CHAR_BEGIN sc);
       At (width sc - MARGIN_LR sc - 1) (height sc / 2) (CHAR_END sc)]
  /\ (raised (draw_frame k sc c now) = Some (BarError ZeroDivisionError)
      \/ raised (draw_frame k sc c now) = Some (BarError OverflowError)).
Proof.
  intros Hw. unfold draw_frame. rewrite and_then_out.
  replace (width sc - MARGIN_LR sc - 1 - 1 - (MARGIN_LR sc + 1) + 1) with 0 by lia.
  destruct (build_zero_length c) as [H|H]; rewrite H; cbn [try_bar fail printed raised app];
    (split; [reflexivity|]); [left|right]; reflexivity.
Qed.

Lemma draw_frame_without_room_witness :
  printed (draw_frame plain_constants
             {| MARGIN_LR := 4; width := 10; height := 24; clear := EmptyString;
                CHAR_BEGIN := "["%string; CHAR_END := "]"%string;
                isoformat_minutes := fun _ => "00:00"%string |} c24 (at_time 12 0))
    = [Print EmptyString; At 4 (24 / 2) "["%string; At (10 - 4 - 1) (24 / 2) "]"%string]
  /\ (raised (draw_frame plain_constants
                {| MARGIN_LR := 4; width := 10; height := 24; clear := EmptyString;
                   CHAR_BEGIN := "["%string; CHAR_END := "]"%string;
                   isoformat_minutes := fun _ => "00:00"%string |} c24 (at_time 12 0))
        = Some (BarError ZeroDivisionError)
      \/ raised (draw_frame plain_constants
                   {| MARGIN_LR := 4; width := 10; height := 24; clear := EmptyString;
                      CHAR_BEGIN := "["%string; CHAR_END := "]"%string;
                      isoformat_minutes := fun _ => "00:00"%string |} c24 (at_time 12 0))
           = Some (BarError OverflowError)).
Proof.
  apply (draw_frame_without_room plain_constants
           {| MARGIN_LR := 4; width := 10; height := 24; clear := EmptyString;
              CHAR_BEGIN := "["%string; CHAR_END := "]"%string;
              isoformat_minutes := fun _ => "00:00"%string |} c24 (at_time 12 0)).
  reflexivity.
Defined.






(** ** The processors of [structlog_config.py] *)

Lemma get_pop (key key' : string) (d : Structlog.EventDict) :
  Structlog.get key (Structlog.pop key' d)
  = if String.eqb key' key then None else Structlog.get key d.
Proof.
  unfold Structlog.pop. induction d as [|[k v] d IH]; cbn [filter Structlog.get fst].
  - destruct (String.eqb key' key); reflexivity.
  - destruct (String.eqb_spec k key') as [->|Hk]; cbn [negb].
    + rewrite IH. destruct (String.eqb_spec key' key); reflexivity.
    + cbn [Structlog.get]. rewrite IH.
      destruct (String.eqb_spec k key) as [->|Hk']; [|reflexivity].
      destruct (String.eqb_spec key' key); [congruence|reflexivity].
Qed.

Lemma get_setitem (key key' : string) (v : Structlog.value) (d : Structlog.EventDict) :
  Structlog.get key (Structlog.setitem key' v d)
  = if String.eqb key' key then Some v else Structlog.get key d.
Proof.
  induction d as [|[k v'] d IH]; cbn [Structlog.setitem Structlog.get].
  - reflexivity.
  - destruct (String.eqb_spec k key') as [->|Hk]; cbn [Structlog.get].
    + destruct (String.eqb_spec key' key); reflexivity.
    + rewrite IH. destruct (String.eqb_spec k key) as [->|Hk']; [|reflexivity].
      destruct (String.eqb_spec key' key); [congruence|reflexivity].
Qed.

Lemma pop_keys (key : string) (d : Structlog.EventDict) :
  forall k, In k (Structlog.keys (Structlog.pop key d)) <->
            In k (Structlog.keys d) /\ k <> key.
Proof.
  intros k. unfold Structlog.keys, Structlog.pop. rewrite !in_map_iff. split.
  - intros [[k' v] [Hk Hin]]. apply filter_In in Hin. destruct Hin as [Hin Hf].
    cbn [fst] in *. subst k'. split; [exists (k, v); auto|].
    destruct (String.eqb_spec k key); [discriminate|assumption].
  - intros [[[k' v] [Hk Hin]] Hne]. cbn [fst] in Hk. subst k'.
    exists (k, v). split; [reflexivity|]. apply filter_In. split; [exact Hin|].
    cbn [fst]. destruct (String.eqb_spec k key); [contradiction|reflexivity].
Qed.

Lemma pop_wf (key : string) (d : Structlog.EventDict) :
  Structlog.wf d -> Structlog.wf (Structlog.pop key d).
Proof.
  unfold Structlog.wf, Structlog.keys, Structlog.pop.
  induction d as [|[k v] d IH]; cbn [filter map fst]; intros H; [constructor|].
  inversion H as [|? ? Hnin Hnd]; subst.
  destruct (negb (String.eqb k key)); [|apply IH; exact Hnd].
  cbn [map fst]. constructor; [|apply IH; exact Hnd].
  intros Hin. apply Hnin. apply in_map_iff in Hin. destruct Hin as [[k' v'] [Hk Hin]].
  apply filter_In in Hin. apply in_map_iff. exists (k', v'). tauto.
Qed.

Lemma pop_absent (key : string) (d : Structlog.EventDict) :
  Structlog.get key d = None -> Structlog.pop key d = d.
Proof.
  unfold Structlog.pop. induction d as [|[k v] d IH]; cbn [filter Structlog.get fst]; [reflexivity|].
  destruct (String.eqb k key); [discriminate|]. cbn [negb]. intros H. rewrite IH by exact H.
  reflexivity.
Qed.

(** X19: [process_erase_undiffable_context] removes the keys [lineno],
    [process], [thread] and [timestamp] and leaves every other key with its
    value; applying it twice is applying it once; a dictionary stays a
    dictionary. *)
Theorem erase_undiffable_context_spec (d : Structlog.EventDict) (key : string) :
  Structlog.get key (Structlog.process_erase_undiffable_context d)
    = (if existsb (String.eqb key) ["lineno"; "process"; "thread"; "timestamp"]%string
       then None else Structlog.get key d)
  /\ Structlog.process_erase_undiffable_context (Structlog.process_erase_undiffable_context d)
     = Structlog.process_erase_undiffable_context d
  /\ (Structlog.wf d -> Structlog.wf (Structlog.process_erase_undiffable_context d)).
Proof.
  unfold Structlog.process_erase_undiffable_context. cbv zeta.
  split; [|split].
  - rewrite !get_pop. cbn [existsb].
    rewrite (String.eqb_sym key "lineno"), (String.eqb_sym key "process"),
      (String.eqb_sym key "thread"), (String.eqb_sym key "timestamp").
    destruct (String.eqb "timestamp" key), (String.eqb "thread" key),
      (String.eqb "process" key), (String.eqb "lineno" key); reflexivity.
  - set (d' := Structlog.pop "timestamp" (Structlog.pop "thread"
                 (Structlog.pop "process" (Structlog.pop "lineno" d)))).
    assert (H : forall key', In key' ["lineno"; "process"; "thread"; "timestamp"]%string ->
                  Structlog.get key' d' = None).
    { intros key' Hin. unfold d'. rewrite !get_pop. cbn [In] in Hin.
      destruct Hin as [<-|[<-|[<-|[<-|[]]]]]; reflexivity. }
    rewrite (pop_absent "lineno" d') by (apply H; cbn; tauto).
    rewrite (pop_absent "process" d') by (apply H; cbn; tauto).
    rewrite (pop_absent "thread" d') by (apply H; cbn; tauto).
    apply pop_absent. apply H. cbn. tauto.
  - intros Hwf. repeat apply pop_wf. exact Hwf.
Qed.

(** X20: [process_event_length_warning] raises KeyError exactly when the
    event dictionary has no [event]; an event of at most 40 characters
    leaves the dictionary as it is; a longer one adds [event_length], the
    length of the event, and [event_length_warning], and changes no other
    key. *)
Theorem event_length_warning_spec (d : Structlog.EventDict) :
  (Structlog.process_event_length_warning d = inl Structlog.KeyError
     <-> Structlog.get "event" d = None)
  /\ (forall s, Structlog.get "event" d = Some (Structlog.VStr s) -> strlen s <= 40 ->
        Structlog.process_event_length_warning d = inr d)
  /\ (forall s, Structlog.get "event" d = Some (Structlog.VStr s) -> 40 < strlen s ->
        exists d',
          Structlog.process_event_length_warning d = inr d'
          /\ Structlog.get "event_length" d' = Some (Structlog.VInt (strlen s))
          /\ Structlog.get "event_length_warning" d'
             = Some (Structlog.VStr "Event surpasses recommended length of 40 chars")
          /\ forall key, key <> "event_length"%string -> key <> "event_length_warning"%string ->
               Structlog.get key d' = Structlog.get key d).
Proof.
  unfold Structlog.process_event_length_warning. cbv zeta.
  split; [|split].
  - destruct (Structlog.get "event" d) as [[s|n|b|]|].
    + destruct (strlen s >? 40); split; discriminate.
    + split; discriminate.
    + split; discriminate.
    + split; discriminate.
    + split; reflexivity.
  - intros s Hs Hlen. rewrite Hs.
    replace (strlen s >? 40) with false; [reflexivity|].
    symmetry. rewrite Z.gtb_ltb. apply Z.ltb_ge. lia.
  - intros s Hs Hlen. rewrite Hs.
    replace (strlen s >? 40) with true by (symmetry; rewrite Z.gtb_ltb; apply Z.ltb_lt; lia).
    eexists. split; [reflexivity|].
    split; [rewrite !get_setitem; reflexivity|].
    split; [rewrite !get_setitem; reflexivity|].
    intros key H1 H2. rewrite !get_setitem.
    destruct (String.eqb_spec "event_length_warning" key); [congruence|].
    destruct (String.eqb_spec "event_length" key); [congruence|]. reflexivity.
Qed.

(** X21: [HumanConsoleRenderer] hands on an event dictionary without
    [filename] and without [lineno]; it changes no key but
    [filename_lineno], which is [filename:lineno] for a string and an int,
    and [filename:xx] for a string and no line number. *)
Theorem human_console_prepare_spec (d : Structlog.EventDict) :
  Structlog.get "filename" (Structlog.human_console_prepare d) = None
  /\ Structlog.get "lineno" (Structlog.human_console_prepare d) = None
  /\ (forall key, key <> "filename"%string -> key <> "lineno"%string ->
        key <> "filename_lineno"%string ->
        Structlog.get key (Structlog.human_console_prepare d) = Structlog.get key d)
  /\ (forall f n, Structlog.get "filename" d = Some (Structlog.VStr f) ->
        Structlog.get "lineno" d = Some (Structlog.VInt n) ->
        Structlog.get "filename_lineno" (Structlog.human_console_prepare d)
        = Some (Structlog.VStr (f ++ ":" ++ str n)))
  /\ (forall f, Structlog.get "filename" d = Some (Structlog.VStr f) ->
        Structlog.get "lineno" d = None ->
        Structlog.get "filename_lineno" (Structlog.human_console_prepare d)
        = Some (Structlog.VStr (f ++ ":xx")))
  /\ (Structlog.get "filename" d = None ->
        Structlog.get "filename_lineno" (Structlog.human_console_prepare d)
        = Structlog.get "filename_lineno" d).
Proof.
  unfold Structlog.human_console_prepare. cbv zeta.
  rewrite !get_pop. change (String.eqb "filename" "lineno") with false. cbv iota.
  repeat split.
  - destruct (Structlog.get "filename" d) as [[f|n|b|]|];
      destruct (Structlog.get "lineno" d) as [[f'|n'|b'|]|];
      rewrite ?get_setitem, !get_pop; reflexivity.
  - destruct (Structlog.get "filename" d) as [[f|n|b|]|];
      destruct (Structlog.get "lineno" d) as [[f'|n'|b'|]|];
      rewrite ?get_setitem, !get_pop; reflexivity.
  - intros key H1 H2 H3.
    assert (E1 : String.eqb "filename" key = false) by (apply String.eqb_neq; congruence).
    assert (E2 : String.eqb "lineno" key = false) by (apply String.eqb_neq; congruence).
    assert (E3 : String.eqb "filename_lineno" key = false) by (apply String.eqb_neq; congruence).
    destruct (Structlog.get "filename" d) as [[f|n|b|]|];
      destruct (Structlog.get "lineno" d) as [[f'|n'|b'|]|];
      rewrite ?get_setitem, !get_pop, ?E1, ?E2, ?E3; reflexivity.
  - intros f n -> ->. rewrite get_setitem. reflexivity.
  - intros f -> ->. rewrite get_setitem. reflexivity.
  - intros ->. destruct (Structlog.get "lineno" d) as [[f'|n'|b'|]|];
      rewrite !get_pop; reflexivity.
Qed.
